(** * Identity reconciliation service: the [/identify] handler of [src/index.ts]

    A shallow embedding of the Express handler and of the SQL statements it
    sends to PostgreSQL, followed by the properties of the consolidation
    algorithm.

    Modelling conventions.
    - The [Contact] table is a list of rows in physical order; [INSERT]
      appends, [UPDATE] rewrites in place.  The [SERIAL] column is a counter
      kept next to the rows.
    - [CREATE TABLE] and every statement name the columns without quotes, so
      PostgreSQL folds the names to lower case, and node-postgres hands each
      row over as an object keyed by the folded names ([pg_row]).  The
      handler reads these objects by the property names of [interface
      Contact]; the annotations are erased, so a property whose name is not
      all in lower case reads [undefined].  What the functions do on objects
      that carry the properties of the interface ([typed]) is stated apart:
      that is [buildResponse] on [Contact] values.
    - A [NULL] column is [None]; an absent field of the request body is
      [None] as well.  A string is a list of characters; the database
      refuses a text parameter that holds the character of code 0.
    - An insertion that the primary key or the foreign key refuses has
      taken a value of the sequence, which is not given back; a statement
      refused for its parameters has not.
    - Timestamps are natural numbers; [now] is the clock reading of the
      statement that uses it: an operation reaches one such statement at
      most, its insertion.
    - A query without [ORDER BY] returns rows in physical order; [ORDER BY
      createdAt] is a stable sort of the rows the recursive query produced.
    - The database keeps what was written when the handler throws: there is
      no transaction in the source, so the monad [M] returns the store next
      to the fault. *)

From Stdlib Require Import List String Ascii Arith NArith Bool Lia PeanoNat.
From Stdlib Require Import Permutation Relations ListDec Sorted.
Import ListNotations.

Set Implicit Arguments.

(* ------------------------------------------------------------------ *)
(** ** Data model *)

Inductive LinkPrecedence : Type :=
| primary
| secondary.

(** [interface Contact], and a row of the table. *)
Record Contact : Type := mkContact {
  id : nat;
  phoneNumber : option string;
  email : option string;
  linkedId : option nat;
  linkPrecedence : LinkPrecedence;
  createdAt : nat;
  updatedAt : nat;
  deletedAt : option nat
}.

(** [interface IdentifyRequest] *)
Record IdentifyRequest : Type := mkRequest {
  reqEmail : option string;
  reqPhoneNumber : option string
}.

(** [interface IdentifyResponse]: the object under the key [contact].  The
    two string arrays can hold the primary's [null], hence [option]. *)
Record IdentifyResponse : Type := mkResponse {
  primaryContatctId : nat;
  emails : list (option string);
  phoneNumbers : list (option string);
  secondaryContactIds : list nat
}.

(** The table together with its [SERIAL] sequence. *)
Record Store : Type := mkStore {
  rows : list Contact;
  nextId : nat
}.

Definition empty_store : Store := {| rows := []; nextId := 1 |}.

(** What the handler's [try] block can end with other than a response. *)
Inductive Fault : Type :=
| StoreFailure      (* a [pool.query] rejected *)
| IntegrityFault    (* [Error('No primary contact found')] *)
| Unresponsive.     (* the recursive query never finishes *)

(** The values found in the objects the handler works on. *)
Inductive JsValue : Type :=
| JsUndefined
| JsNull
| JsString (s : string)
| JsNumber (n : nat)
| JsDate (t : nat).

(** An object: its keys with their values. *)
Definition JsObject : Type := list (string * JsValue).

(** The object that [buildResponse] returns under the key [contact], as
    JavaScript builds it from whatever the properties read. *)
Record JsonBody : Type := mkJsonBody {
  json_primaryContatctId : JsValue;
  json_emails : list JsValue;
  json_phoneNumbers : list JsValue;
  json_secondaryContactIds : list JsValue
}.

(** What the client receives; [NoReply] when the awaited query never
    settles. *)
Inductive HttpReply : Type :=
| Ok200 (body : JsonBody)
| BadRequest400
| InternalError500
| NoReply.

(* ------------------------------------------------------------------ *)
(** ** Decidable equalities and JavaScript coercions *)

Definition is_primary (c : Contact) : bool :=
  match linkPrecedence c with primary => true | secondary => false end.

Definition is_secondary (c : Contact) : bool :=
  match linkPrecedence c with primary => false | secondary => true end.

Definition opt_string_eqb (a b : option string) : bool :=
  match a, b with
  | Some x, Some y => String.eqb x y
  | None, None => true
  | _, _ => false
  end.

(** [if (x)] on an optional string: [undefined], [null] and [''] are falsy. *)
Definition truthy (x : option string) : bool :=
  match x with
  | Some s => negb (String.eqb s EmptyString)
  | None => false
  end.

(** SQL [column = $n] with a non-null parameter: [NULL = v] is not true. *)
Definition sql_eq (column : option string) (v : string) : bool :=
  match column with
  | Some x => String.eqb x v
  | None => false
  end.

Definition sql_is_null {A : Type} (column : option A) : bool :=
  match column with
  | Some _ => false
  | None => true
  end.

Definition links_to (c : Contact) (parent : nat) : bool :=
  match linkedId c with
  | Some l => Nat.eqb l parent
  | None => false
  end.

(* ------------------------------------------------------------------ *)
(** ** Column constraints of [CREATE TABLE Contact] *)

Fixpoint all_spaces (s : string) : bool :=
  match s with
  | EmptyString => true
  | String a rest => Ascii.eqb a " "%char && all_spaces rest
  end.

(** Storing into [VARCHAR(n)]: a longer value is refused unless the excess
    is made of spaces, which are cut off. *)
Definition varchar (n : nat) (v : option string) : option (option string) :=
  match v with
  | None => Some None
  | Some s =>
      if String.length s <=? n then Some (Some s)
      else if all_spaces (substring n (String.length s - n) s)
           then Some (Some (substring 0 n s))
           else None
  end.

(** A text parameter: the database refuses a value that holds the character
    of code 0. *)
Fixpoint has_nul (s : string) : bool :=
  match s with
  | EmptyString => false
  | String a rest => Ascii.eqb a Ascii.zero || has_nul rest
  end.

Definition sendable (v : option string) : bool :=
  match v with
  | Some s => negb (has_nul s)
  | None => true
  end.

(** The greatest value of an [INTEGER] column, and so of the sequence of a
    [SERIAL] one. *)
Definition max_integer : N := 2147483647%N.

Definition in_integer (n : nat) : bool := (N.of_nat n <=? max_integer)%N.

Definition integer_ok (v : option nat) : bool :=
  match v with
  | Some n => in_integer n
  | None => true
  end.

(** [id SERIAL PRIMARY KEY]: a key already in the table is refused. *)
Definition id_taken (table : list Contact) (k : nat) : bool :=
  existsb (fun c => Nat.eqb (id c) k) table.

(** [linkedId INTEGER REFERENCES Contact(id)] *)
Definition references_ok (table : list Contact) (l : option nat) : bool :=
  match l with
  | None => true
  | Some k => id_taken table k
  end.

(* ------------------------------------------------------------------ *)
(** ** The SQL statements, as functions of the table *)

(** [SELECT * FROM Contact WHERE deletedAt IS NULL AND (email = $1 OR
    phoneNumber = $2)], each disjunct present only for a truthy argument;
    [WHERE false] when there is none. *)
Definition select_related (e p : option string) (table : list Contact)
  : list Contact :=
  let by_email c := match e with
                    | Some v => truthy e && sql_eq (email c) v
                    | None => false
                    end in
  let by_phone c := match p with
                    | Some v => truthy p && sql_eq (phoneNumber c) v
                    | None => false
                    end in
  filter (fun c => sql_is_null (deletedAt c) && (by_email c || by_phone c))
         table.

(** One round of the recursive term: [SELECT c.* FROM Contact c INNER JOIN
    contact_tree ct ON c.linkedId = ct.id WHERE c.deletedAt IS NULL]. *)
Definition tree_step (table work : list Contact) : list Contact :=
  flat_map
    (fun ct => filter (fun c => links_to c (id ct) && sql_is_null (deletedAt c))
                      table)
    work.

(** [WITH RECURSIVE ... UNION ALL]: rounds are appended until one is empty.
    [None] when the fuel runs out with rows still in the working table. *)
Fixpoint contact_tree (fuel : nat) (table work : list Contact)
  : option (list Contact) :=
  match work with
  | [] => Some []
  | _ :: _ =>
      match fuel with
      | 0 => None
      | S fuel' =>
          match contact_tree fuel' table (tree_step table work) with
          | Some rest => Some (work ++ rest)
          | None => None
          end
      end
  end.

Fixpoint insert_by_createdAt (c : Contact) (l : list Contact) : list Contact :=
  match l with
  | [] => [c]
  | d :: rest =>
      if createdAt c <=? createdAt d then c :: l
      else d :: insert_by_createdAt c rest
  end.

(** [ORDER BY createdAt ASC], stable. *)
Definition order_by_createdAt (l : list Contact) : list Contact :=
  fold_right insert_by_createdAt [] l.

(** The whole statement of [getContactChain].  A chain of links longer than
    the table has rows goes through some row twice, so the query would run
    for ever: that is the [None] case ([select_chain_none_forever]). *)
Definition select_chain (root : nat) (table : list Contact)
  : option (list Contact) :=
  let base :=
    filter (fun c => Nat.eqb (id c) root && sql_is_null (deletedAt c)) table in
  match contact_tree (S (List.length table)) table base with
  | Some l => Some (order_by_createdAt l)
  | None => None
  end.

(** What an [INSERT] comes to: the row and the store with it, or the store
    a refusal leaves. *)
Inductive Inserted : Type :=
| Accepted (c : Contact) (s' : Store)
| Refused (s' : Store).

(** [INSERT INTO Contact (...) VALUES ($1, $2, $3, $4, CURRENT_TIMESTAMP,
    CURRENT_TIMESTAMP) RETURNING *].  A parameter that is refused, a value
    too long for its column and an exhausted sequence stop the statement
    before a value of the sequence is taken; a row refused by the primary
    key or by the foreign key has taken one. *)
Definition insert_contact (now : nat) (e p : option string) (l : option nat)
           (prec : LinkPrecedence) (s : Store) : Inserted :=
  if sendable p && sendable e && integer_ok l && in_integer (nextId s) then
    match varchar 15 p, varchar 255 e with
    | Some p', Some e' =>
        let c := {| id := nextId s; phoneNumber := p'; email := e';
                    linkedId := l; linkPrecedence := prec;
                    createdAt := now; updatedAt := now; deletedAt := None |} in
        if references_ok (rows s) l && negb (id_taken (rows s) (nextId s))
        then Accepted c {| rows := rows s ++ [c]; nextId := S (nextId s) |}
        else Refused {| rows := rows s; nextId := S (nextId s) |}
    | _, _ => Refused s
    end
  else Refused s.

Definition demote_row (now linked : nat) (c : Contact) : Contact :=
  {| id := id c; phoneNumber := phoneNumber c; email := email c;
     linkedId := Some linked; linkPrecedence := secondary;
     createdAt := createdAt c; updatedAt := now; deletedAt := deletedAt c |}.

(** [UPDATE Contact SET linkedId = $1, linkPrecedence = 'secondary',
    updatedAt = CURRENT_TIMESTAMP WHERE id = $2] *)
Definition update_to_secondary (now contactId linked : nat) (s : Store)
  : option Store :=
  if id_taken (rows s) contactId
     && negb (references_ok (rows s) (Some linked))
  then None
  else Some {| rows := map (fun c => if Nat.eqb (id c) contactId
                                     then demote_row now linked c else c)
                           (rows s);
               nextId := nextId s |}.

(* ------------------------------------------------------------------ *)
(** ** The handler's effects

    [outage = Some k]: the connection is lost after [k] more statements;
    [None]: it holds for the whole operation. *)

Record World : Type := mkWorld {
  db : Store;
  outage : option nat
}.

Definition M (A : Type) : Type := World -> (Fault + A) * World.

Definition ret {A : Type} (a : A) : M A := fun w => (inr a, w).

Definition throw {A : Type} (f : Fault) : M A := fun w => (inl f, w).

Definition bind {A B : Type} (m : M A) (k : A -> M B) : M B :=
  fun w => match m w with
           | (inr a, w') => k a w'
           | (inl f, w') => (inl f, w')
           end.

Notation "x <- m ;; k" := (bind m (fun x => k))
  (at level 61, m at next level, right associativity).

(** [await pool.query(...)]: the statement runs unless the connection is
    gone. *)
Definition query {A : Type} (stmt : Store -> (Fault + A) * Store) : M A :=
  fun w =>
    match outage w with
    | Some 0 => (inl StoreFailure, w)
    | Some (S k) =>
        let (r, s') := stmt (db w) in (r, {| db := s'; outage := Some k |})
    | None =>
        let (r, s') := stmt (db w) in (r, {| db := s'; outage := None |})
    end.

Fixpoint for_each {A : Type} (l : list A) (body : A -> M unit) : M unit :=
  match l with
  | [] => ret tt
  | x :: rest => _ <- body x ;; for_each rest body
  end.

(* ------------------------------------------------------------------ *)
(** ** The query functions of [index.ts] *)

(** The parameters are the arguments that are truthy. *)
Definition getRelatedContacts (e p : option string) : M (list Contact) :=
  let values := (if truthy e then [e] else [])
                ++ (if truthy p then [p] else []) in
  query (fun s => if forallb sendable values
                  then (inr (select_related e p (rows s)), s)
                  else (inl StoreFailure, s)).

Definition getContactChain (contact : Contact) : M (list Contact) :=
  query (fun s => match select_chain (id contact) (rows s) with
                  | Some l => (inr l, s)
                  | None => (inl Unresponsive, s)
                  end).

Definition createContact (now : nat) (e p : option string) (l : option nat)
           (prec : LinkPrecedence) : M Contact :=
  query (fun s => match insert_contact now e p l prec s with
                  | Accepted c s' => (inr c, s')
                  | Refused s' => (inl StoreFailure, s')
                  end).

Definition updateContactToSecondary (now contactId linked : nat) : M unit :=
  query (fun s => match update_to_secondary now contactId linked s with
                  | Some s' => (inr tt, s')
                  | None => (inl StoreFailure, s)
                  end).

(* ------------------------------------------------------------------ *)
(** ** [buildResponse] on contacts of the declared interface *)

(** [new Set<string>([...])] followed by [Array.from]: insertion order,
    first occurrence kept. *)
Definition set_from (l : list (option string)) : list (option string) :=
  fold_left (fun acc x => if existsb (opt_string_eqb x) acc then acc
                          else acc ++ [x])
            l [].

Definition buildResponse (contacts : list Contact) : Fault + IdentifyResponse :=
  match find is_primary contacts with
  | None => inl IntegrityFault
  | Some p =>
      let sec := filter is_secondary contacts in
      inr {| primaryContatctId := id p;
             emails := set_from (email p :: filter truthy (map email sec));
             phoneNumbers :=
               set_from (phoneNumber p :: filter truthy (map phoneNumber sec));
             secondaryContactIds := map id sec |}
  end.

(* ------------------------------------------------------------------ *)
(** ** Rows as the handler receives them *)

(** [o.key]: the value under the key, [undefined] when the object has no
    such key.  Keys are compared as they are written. *)
Fixpoint prop (key : string) (o : JsObject) : JsValue :=
  match o with
  | [] => JsUndefined
  | (k, v) :: rest => if String.eqb k key then v else prop key rest
  end.

Definition js_text (column : option string) : JsValue :=
  match column with
  | Some s => JsString s
  | None => JsNull
  end.

Definition js_integer (column : option nat) : JsValue :=
  match column with
  | Some n => JsNumber n
  | None => JsNull
  end.

Definition js_timestamp (column : option nat) : JsValue :=
  match column with
  | Some t => JsDate t
  | None => JsNull
  end.

Definition js_precedence (prec : LinkPrecedence) : JsValue :=
  match prec with
  | primary => JsString "primary"
  | secondary => JsString "secondary"
  end.

(** An element of [result.rows]: the columns under the names PostgreSQL
    gave them, [CREATE TABLE Contact (id ..., phoneNumber ..., ...)] being
    written without quotes. *)
Definition pg_row (c : Contact) : JsObject :=
  [ ("id"%string, JsNumber (id c));
    ("phonenumber"%string, js_text (phoneNumber c));
    ("email"%string, js_text (email c));
    ("linkedid"%string, js_integer (linkedId c));
    ("linkprecedence"%string, js_precedence (linkPrecedence c));
    ("createdat"%string, JsDate (createdAt c));
    ("updatedat"%string, JsDate (updatedAt c));
    ("deletedat"%string, js_timestamp (deletedAt c)) ].

(** The same values under the property names of [interface Contact]. *)
Definition typed (c : Contact) : JsObject :=
  [ ("id"%string, JsNumber (id c));
    ("phoneNumber"%string, js_text (phoneNumber c));
    ("email"%string, js_text (email c));
    ("linkedId"%string, js_integer (linkedId c));
    ("linkPrecedence"%string, js_precedence (linkPrecedence c));
    ("createdAt"%string, JsDate (createdAt c));
    ("updatedAt"%string, JsDate (updatedAt c));
    ("deletedAt"%string, js_timestamp (deletedAt c)) ].

(** [c.name] in the handler, [c] being a row it received. *)
Definition field (name : string) (c : Contact) : JsValue :=
  prop name (pg_row c).

(** A field of the request body: absent is [undefined]. *)
Definition js_field (v : option string) : JsValue :=
  match v with
  | Some s => JsString s
  | None => JsUndefined
  end.

(** [a === b].  Two [Date] objects read from two rows are never the same
    object. *)
Definition js_strict_eq (a b : JsValue) : bool :=
  match a, b with
  | JsUndefined, JsUndefined => true
  | JsNull, JsNull => true
  | JsString x, JsString y => String.eqb x y
  | JsNumber x, JsNumber y => Nat.eqb x y
  | _, _ => false
  end.

(** [Boolean(v)] *)
Definition js_truthy (v : JsValue) : bool :=
  match v with
  | JsUndefined => false
  | JsNull => false
  | JsString s => negb (String.eqb s EmptyString)
  | JsNumber n => negb (Nat.eqb n 0)
  | JsDate _ => true
  end.

(** [new Date(a) < new Date(b)] for what a row holds under a name:
    two dates compare by their times; [new Date(undefined)] is an invalid
    date, which is below nothing. *)
Definition date_lt (a b : JsValue) : bool :=
  match a, b with
  | JsDate x, JsDate y => x <? y
  | _, _ => false
  end.

(* ------------------------------------------------------------------ *)
(** ** [buildResponse] and the handler, on objects *)

(** [c.linkPrecedence === 'primary'] and [=== 'secondary'] on an object. *)
Definition reads_precedence (which : string) (o : JsObject) : bool :=
  js_strict_eq (prop "linkPrecedence" o) (JsString which).

Definition set_from_js (l : list JsValue) : list JsValue :=
  fold_left (fun acc x => if existsb (js_strict_eq x) acc then acc
                          else acc ++ [x])
            l [].

(** Lines 115-132, whatever the objects are. *)
Definition buildResponse_js (contacts : list JsObject) : Fault + JsonBody :=
  match find (reads_precedence "primary") contacts with
  | None => inl IntegrityFault
  | Some p =>
      let sec := filter (reads_precedence "secondary") contacts in
      inr {| json_primaryContatctId := prop "id" p;
             json_emails :=
               set_from_js (prop "email" p
                            :: filter js_truthy (map (prop "email") sec));
             json_phoneNumbers :=
               set_from_js (prop "phoneNumber" p
                            :: filter js_truthy (map (prop "phoneNumber") sec));
             json_secondaryContactIds := map (prop "id") sec |}
  end.

Definition respond {A : Type} (r : Fault + A) : M A :=
  match r with
  | inr body => ret body
  | inl f => throw f
  end.

(** [c.linkPrecedence === 'primary'] at lines 143 and 160, on a row. *)
Definition sees_primary (c : Contact) : bool :=
  js_strict_eq (field "linkPrecedence" c) (JsString "primary").

(** [primaries.reduce((a, b) => new Date(a.createdAt) < new Date(b.createdAt)
    ? a : b)] on a non-empty array. *)
Definition older (a b : Contact) : Contact :=
  if date_lt (field "createdAt" a) (field "createdAt" b) then a else b.

Definition reduce_oldest (first : Contact) (others : list Contact) : Contact :=
  fold_left older others first.

(** Lines 160-166: demote every primary of the chain but the oldest.  The
    property [id] has the name of its column, so [p.id] is the row's id.
    (The statements of the loop are all given the reading [now]; with the
    rows as they are received the loop is never entered.) *)
Definition merge_primaries (now : nat) (fullChain : list Contact) : M unit :=
  let primaries := filter sees_primary fullChain in
  match primaries with
  | first :: others =>
      if 1 <? List.length primaries then
        let oldest := reduce_oldest first others in
        for_each primaries
          (fun p => if js_strict_eq (field "id" p) (field "id" oldest)
                    then ret tt
                    else updateContactToSecondary now (id p) (id oldest))
      else ret tt
  | [] => ret tt
  end.

(** Lines 149-158: the chain, with a new secondary pushed on it when the
    request brings an email or a phone number the chain does not have. *)
Definition alreadyExists (e p : option string) (fullChain : list Contact)
  : bool :=
  existsb (fun c => js_strict_eq (field "email" c) (js_field e)
                    && js_strict_eq (field "phoneNumber" c) (js_field p))
          fullChain.

Definition brings_new (e p : option string) (fullChain : list Contact) : bool :=
  let existsEmail :=
    existsb (fun c => js_strict_eq (field "email" c) (js_field e)) fullChain in
  let existsPhone :=
    existsb (fun c => js_strict_eq (field "phoneNumber" c) (js_field p))
            fullChain in
  (truthy e && negb existsEmail) || (truthy p && negb existsPhone).

Definition extend_chain (now : nat) (e p : option string) (prim : Contact)
           (fullChain : list Contact) : M (list Contact) :=
  if negb (alreadyExists e p fullChain) then
    if brings_new e p fullChain then
      sec <- createContact now e p (Some (id prim)) secondary ;;
      ret (fullChain ++ [sec])
    else ret fullChain
  else ret fullChain.

(** Lines 141-168, from the rows that [getRelatedContacts] returned. *)
Definition consolidate (now : nat) (e p : option string)
           (related : list Contact) : M JsonBody :=
  fullChain <- match related with
               | first :: _ => getContactChain first
               | [] => ret []
               end ;;
  match find sees_primary fullChain with
  | None =>
      prim <- createContact now e p None primary ;;
      respond (buildResponse_js [pg_row prim])
  | Some prim =>
      fullChain' <- extend_chain now e p prim fullChain ;;
      _ <- merge_primaries now fullChain' ;;
      respond (buildResponse_js (map pg_row fullChain'))
  end.

(** The body of the [try] block after the check of the request. *)
Definition identify (now : nat) (req : IdentifyRequest) : M JsonBody :=
  related <- getRelatedContacts (reqEmail req) (reqPhoneNumber req) ;;
  consolidate now (reqEmail req) (reqPhoneNumber req) related.

(** [res.json(...)] at the end of the [try] block, and the [catch] block:
    one body for whatever was thrown. *)
Definition reply (r : Fault + JsonBody) : HttpReply :=
  match r with
  | inr body => Ok200 body
  | inl Unresponsive => NoReply
  | inl _ => InternalError500
  end.

(** [app.post('/identify', ...)]: the reply and the table afterwards. *)
Definition post_identify (now : nat) (fails_after : option nat)
           (req : IdentifyRequest) (s : Store) : HttpReply * Store :=
  if negb (truthy (reqEmail req)) && negb (truthy (reqPhoneNumber req))
  then (BadRequest400, s)
  else
    let (r, w) := identify now req {| db := s; outage := fails_after |} in
    (reply r, db w).

(** Lines 140-141: the chain the handler works on, [None] when the
    recursive query does not finish. *)
Definition expanded_chain (e p : option string) (table : list Contact)
  : option (list Contact) :=
  match select_related e p table with
  | first :: _ => select_chain (id first) table
  | [] => Some []
  end.

(** A history: the requests served so far, each with the clock reading and
    the fate of the connection during its operation. *)
Record Call : Type := mkCall {
  call_now : nat;
  call_fails_after : option nat;
  call_req : IdentifyRequest
}.

Definition serve (s : Store) (c : Call) : Store :=
  snd (post_identify (call_now c) (call_fails_after c) (call_req c) s).

Definition run (history : list Call) : Store :=
  fold_left serve history empty_store.

(* ------------------------------------------------------------------ *)
(** ** Example data: the observations of the specification's scenarios *)

Definition obs (e p : option string) (t : nat) : Call :=
  {| call_now := t; call_fails_after := None;
     call_req := {| reqEmail := e; reqPhoneNumber := p |} |}.

Definition ax : option string := Some "a@x.com"%string.
Definition p555 : option string := Some "555"%string.
Definition p777 : option string := Some "777"%string.

(** A primary and its secondary, as the specification's scenario 2 leaves
    them. *)
Definition star_table : Store :=
  {| rows :=
       [ mkContact 1 None ax None primary 10 10 None;
         mkContact 2 p555 ax (Some 1) secondary 20 20 None ];
     nextId := 3 |}.

(** A corrupted table whose chain holds two primaries: contact 2 is a
    primary although it is linked to contact 1. *)
Definition two_primaries_chain : Store :=
  {| rows :=
       [ mkContact 1 None ax None primary 10 10 None;
         mkContact 2 p777 (Some "b@x.com"%string) (Some 1) primary 20 20 None;
         mkContact 3 (Some "888"%string) (Some "b@x.com"%string) (Some 2)
                   secondary 30 30 None ];
     nextId := 4 |}.


Unset Implicit Arguments.

(* ------------------------------------------------------------------ *)
(** ** Vocabulary of the properties *)

(** Keys are unique and below the sequence; a primary is linked to nothing;
    a secondary is linked to a row that is a primary. *)
Record well_formed (s : Store) : Prop := mkWellFormed {
  wf_fresh : forall c, In c (rows s) -> id c < nextId s;
  wf_keys : NoDup (map id (rows s));
  wf_roots : forall c, In c (rows s) -> is_primary c = true -> linkedId c = None;
  wf_leaves : forall c, In c (rows s) -> is_secondary c = true ->
      exists p, In p (rows s) /\ linkedId c = Some (id p) /\ is_primary p = true
}.

Arguments wf_fresh {s}.
Arguments wf_keys {s}.
Arguments wf_roots {s}.
Arguments wf_leaves {s}.

(** No orphan secondary: a secondary that is not deleted is linked to a row
    of the table that is a primary. *)
Definition links_resolve (s : Store) : Prop :=
  forall c, In c (rows s) -> deletedAt c = None -> is_secondary c = true ->
    exists p, In p (rows s) /\ linkedId c = Some (id p) /\ is_primary p = true.

(** The rows are as they were; the sequence may have moved on. *)
Definition kept (s0 s : Store) : Prop :=
  rows s = rows s0 /\ nextId s0 <= nextId s.

(** A row as an operation inserts it. *)
Definition fresh_primary (now : nat) (s : Store) (c : Contact) : Prop :=
  id c = nextId s /\ linkPrecedence c = primary /\ linkedId c = None /\
  createdAt c = now /\ updatedAt c = now /\ deletedAt c = None.

(** A row as every operation leaves it. *)
Definition unlinked_primary (c : Contact) : Prop :=
  linkPrecedence c = primary /\ linkedId c = None /\ deletedAt c = None /\
  createdAt c = updatedAt c.

(** A value fits a column of width [n]. *)
Definition fits (n : nat) (v : option string) : bool :=
  match v with
  | Some s => String.length s <=? n
  | None => true
  end.

(** Two rows share an attribute: the same email or the same phone number. *)
Definition same_value (a b : option string) : bool :=
  match a, b with
  | Some x, Some y => String.eqb x y
  | _, _ => false
  end.

Definition shares (c d : Contact) : bool :=
  same_value (email c) (email d) || same_value (phoneNumber c) (phoneNumber d).

Definition linked_by_attribute (table : list Contact) (c d : Contact) : Prop :=
  In c table /\ In d table /\ deletedAt c = None /\ deletedAt d = None /\
  shares c d = true.

(** A cluster: rows connected through shared emails and phone numbers. *)
Definition same_cluster (table : list Contact) : Contact -> Contact -> Prop :=
  clos_refl_trans Contact (linked_by_attribute table).

(** The working table of the recursive query after [k] rounds, and the
    paths of links its rows are reached by. *)
Fixpoint rounds (k : nat) (table work : list Contact) : list Contact :=
  match k with
  | 0 => work
  | S k' => rounds k' table (tree_step table work)
  end.

Definition child (table : list Contact) (c d : Contact) : Prop :=
  In d table /\ sql_is_null (deletedAt d) = true /\ links_to d (id c) = true.

Fixpoint path (table : list Contact) (c : Contact) (l : list Contact) : Prop :=
  match l with
  | [] => True
  | x :: rest => child table c x /\ path table x rest
  end.

(** Walking [m] times round a cycle. *)
Fixpoint turns (m : nat) (cycle : list Contact) : list Contact :=
  match m with
  | 0 => []
  | S m' => cycle ++ turns m' cycle
  end.

Definition by_createdAt (a b : Contact) : Prop := createdAt a <= createdAt b.

(** The answer on typed contacts, as the JavaScript object it is. *)
Definition json (body : IdentifyResponse) : JsonBody :=
  {| json_primaryContatctId := JsNumber (primaryContatctId body);
     json_emails := map js_text (emails body);
     json_phoneNumbers := map js_text (phoneNumbers body);
     json_secondaryContactIds := map JsNumber (secondaryContactIds body) |}.

(** What an operation comes to when the connection holds: the fault it
    ends with and the table it leaves. *)
Definition served (now : nat) (req : IdentifyRequest) (s : Store)
  : Fault * Store :=
  if sendable (reqEmail req) && sendable (reqPhoneNumber req) then
    match expanded_chain (reqEmail req) (reqPhoneNumber req) (rows s) with
    | None => (Unresponsive, s)
    | Some _ =>
        match insert_contact now (reqEmail req) (reqPhoneNumber req)
                             None primary s with
        | Accepted _ s1 => (IntegrityFault, s1)
        | Refused s1 => (StoreFailure, s1)
        end
    end
  else (StoreFailure, s).

(** Conditions on the handler's effects: what holds of the world after a
    normal return ([Q]) and after a fault ([E]), given [P] before. *)
Definition triple {A : Type} (P : World -> Prop) (m : M A)
           (Q : A -> World -> Prop) (E : Fault -> World -> Prop) : Prop :=
  forall w, P w ->
    match m w with
    | (inr a, w') => Q a w'
    | (inl f, w') => E f w'
    end.

(** Triples whose conditions look at the table only. *)
Definition on_db (P : Store -> Prop) : World -> Prop := fun w => P (db w).

(** Histories and tables used as examples. *)
Definition bridge_history : list Call :=
  [obs ax None 10; obs None p777 20; obs ax p777 30].


Definition demotion_example : World :=
  {| db := two_primaries_chain; outage := None |}.

(* ------------------------------------------------------------------ *)
(** ** Reasoning about [M]: triples with a normal and a fault postcondition *)

Lemma triple_ret {A : Type} (P : World -> Prop) (a : A) Q E :
  (forall w, P w -> Q a w) -> triple P (ret a) Q E.
Proof. intros H w Hw. simpl. auto. Qed.

Lemma triple_bind {A B : Type} (P : World -> Prop) (m : M A) (k : A -> M B)
      (R : A -> World -> Prop) Q E :
  triple P m R E ->
  (forall a, triple (R a) (k a) Q E) ->
  triple P (bind m k) Q E.
Proof.
  intros Hm Hk w Hw. unfold bind.
  specialize (Hm w Hw). destruct (m w) as [[f | a] w']; auto.
  apply Hk. exact Hm.
Qed.

Lemma triple_weaken {A : Type} (P P' : World -> Prop) (m : M A)
      (Q Q' : A -> World -> Prop) (E E' : Fault -> World -> Prop) :
  triple P' m Q' E' ->
  (forall w, P w -> P' w) ->
  (forall a w, Q' a w -> Q a w) ->
  (forall f w, E' f w -> E f w) ->
  triple P m Q E.
Proof.
  intros H HP HQ HE w Hw. specialize (H w (HP w Hw)).
  destruct (m w) as [[f | a] w']; auto.
Qed.

(** A statement: it may find the connection gone, which changes nothing;
    otherwise it acts on the table and the connection lives one statement
    less. *)
Lemma triple_query {A : Type} (P : World -> Prop)
      (stmt : Store -> (Fault + A) * Store) Q E :
  (forall w, P w -> outage w = Some 0 -> E StoreFailure w) ->
  (forall w k, P w -> outage w <> Some 0 ->
     k = match outage w with Some n => Some (pred n) | None => None end ->
     match stmt (db w) with
     | (inr a, s') => Q a {| db := s'; outage := k |}
     | (inl f, s') => E f {| db := s'; outage := k |}
     end) ->
  triple P (query stmt) Q E.
Proof.
  intros Hgone Hrun w Hw. unfold query.
  destruct (outage w) as [[| n] |] eqn:Ho.
  - apply Hgone; assumption.
  - specialize (Hrun w (Some n) Hw). rewrite Ho in Hrun.
    destruct (stmt (db w)) as [[f | a] s']; apply Hrun;
      solve [discriminate | reflexivity].
  - specialize (Hrun w None Hw). rewrite Ho in Hrun.
    destruct (stmt (db w)) as [[f | a] s']; apply Hrun;
      solve [discriminate | reflexivity].
Qed.

Lemma triple_query_db {A : Type} (P : Store -> Prop)
      (stmt : Store -> (Fault + A) * Store)
      (Q : A -> Store -> Prop) (E : Fault -> Store -> Prop) :
  (forall s, P s -> E StoreFailure s) ->
  (forall s, P s -> match stmt s with
                    | (inr a, s') => Q a s'
                    | (inl f, s') => E f s'
                    end) ->
  triple (on_db P) (query stmt) (fun a => on_db (Q a)) (fun f => on_db (E f)).
Proof.
  intros Hgone Hrun. apply triple_query; unfold on_db.
  - intros w Hw _. auto.
  - intros w k Hw _ _. specialize (Hrun (db w) Hw).
    destruct (stmt (db w)) as [[f | a] s']; exact Hrun.
Qed.

(* ------------------------------------------------------------------ *)
(** ** Facts about the statements *)

Lemma in_tree_step table work c :
  In c (tree_step table work) <->
  In c table /\ sql_is_null (deletedAt c) = true /\
  exists ct, In ct work /\ links_to c (id ct) = true.
Proof.
  unfold tree_step. rewrite in_flat_map. split.
  - intros [ct [Hct Hc]]. apply filter_In in Hc. destruct Hc as [Hin Hb].
    apply andb_true_iff in Hb. destruct Hb as [Hl Hd].
    repeat split; eauto.
  - intros [Hin [Hd [ct [Hct Hl]]]]. exists ct. split; [assumption |].
    apply filter_In. split; [assumption |]. now rewrite Hl, Hd.
Qed.

Lemma links_to_linked c k : links_to c k = true -> linkedId c = Some k.
Proof.
  unfold links_to. destruct (linkedId c) as [l |]; [| discriminate].
  intros H. apply Nat.eqb_eq in H. now subst.
Qed.

Lemma contact_tree_nil fuel table : contact_tree fuel table [] = Some [].
Proof. destruct fuel; reflexivity. Qed.

Lemma in_insert_by_createdAt c l x :
  In x (insert_by_createdAt c l) <-> x = c \/ In x l.
Proof.
  induction l as [| d rest IH]; simpl.
  - intuition.
  - destruct (createdAt c <=? createdAt d); simpl; [intuition |].
    rewrite IH. intuition.
Qed.

Lemma in_order_by_createdAt l x : In x (order_by_createdAt l) <-> In x l.
Proof.
  induction l as [| c rest IH]; simpl; [tauto |].
  rewrite in_insert_by_createdAt, IH. intuition.
Qed.

Lemma id_taken_iff table k : id_taken table k = true <-> exists c, In c table /\ id c = k.
Proof.
  unfold id_taken. rewrite existsb_exists. split; intros [c [Hin H]]; exists c.
  - apply Nat.eqb_eq in H. auto.
  - apply Nat.eqb_eq in H. auto.
Qed.

(* ------------------------------------------------------------------ *)
(** ** The fuel of the recursive query is enough

    If the working table is not empty after as many rounds as the table has
    rows plus one, it is never empty: some row is reached twice on a path of
    links, and the path can be walked round for ever. *)

Lemma Contact_eq_dec (a b : Contact) : {a = b} + {a <> b}.
Proof.
  decide equality;
    try apply Nat.eq_dec;
    try (decide equality; try apply Nat.eq_dec; apply string_dec).
Qed.

Lemma rounds_nil k table : rounds k table [] = [].
Proof. induction k as [| k IH]; simpl; [reflexivity | exact IH]. Qed.

Lemma contact_tree_none_iff fuel table :
  forall work, contact_tree fuel table work = None <-> rounds fuel table work <> [].
Proof.
  induction fuel as [| fuel IH]; intros work; destruct work as [| w0 work];
    cbn [contact_tree rounds].
  - split; [discriminate | intros H; now contradiction H].
  - split; [discriminate | reflexivity].
  - change (tree_step table []) with (@nil Contact). rewrite rounds_nil.
    split; [discriminate | intros H; now contradiction H].
  - rewrite <- IH.
    destruct (contact_tree fuel table (tree_step table (w0 :: work)));
      split; congruence.
Qed.

Lemma last_cons (l : list Contact) :
  forall x d, last (x :: l) d = last l x.
Proof.
  induction l as [| y l IH]; intros x d; [reflexivity |].
  change (last (x :: y :: l) d) with (last (y :: l) d).
  now rewrite (IH y d), (IH y x).
Qed.

Lemma last_app (l1 l2 : list Contact) :
  forall d, last (l1 ++ l2) d = last l2 (last l1 d).
Proof.
  induction l1 as [| x l1 IH]; intros d; [reflexivity |].
  change ((x :: l1) ++ l2) with (x :: (l1 ++ l2)).
  now rewrite !last_cons, IH.
Qed.

Lemma path_child_in table c l : path table c l -> forall x, In x l -> In x table.
Proof.
  revert c. induction l as [| y l IH]; intros c Hp x Hx; [contradiction |].
  destruct Hp as [[Hy _] Hp]. destruct Hx as [<- | Hx]; [assumption |].
  exact (IH y Hp x Hx).
Qed.

Lemma path_app table l1 : forall c l2,
  path table c (l1 ++ l2) <-> path table c l1 /\ path table (last l1 c) l2.
Proof.
  induction l1 as [| x l1 IH]; intros c l2.
  - simpl. tauto.
  - change ((x :: l1) ++ l2) with (x :: (l1 ++ l2)). cbn [path].
    rewrite IH, last_cons. tauto.
Qed.

Lemma path_firstn table k : forall c l, path table c l -> path table c (firstn k l).
Proof.
  induction k as [| k IH]; intros c l Hp; [exact I |].
  destruct l as [| x l]; [exact I |].
  destruct Hp as [Hx Hp]. split; [assumption | now apply IH].
Qed.

Lemma in_rounds k table :
  forall work x,
    In x (rounds k table work) <->
    exists c l, In c work /\ path table c l /\ List.length l = k /\ last l c = x.
Proof.
  induction k as [| k IH]; intros work x; cbn [rounds].
  - split.
    + intros Hx. exists x, []. repeat split; assumption.
    + intros [c [l [Hc [_ [Hl Hlast]]]]].
      destruct l; [| discriminate]. simpl in Hlast. now subst.
  - rewrite IH. split.
    + intros [c' [l [Hc' [Hp [Hl Hlast]]]]].
      apply in_tree_step in Hc'. destruct Hc' as [Hin [Hd [c [Hc Hlink]]]].
      exists c, (c' :: l). split; [assumption |]. split.
      * split; [repeat split; assumption | assumption].
      * split; [simpl; now rewrite Hl | now rewrite last_cons].
    + intros [c [l [Hc [Hp [Hl Hlast]]]]].
      destruct l as [| c' l]; [discriminate |].
      destruct Hp as [[Hin [Hd Hlink]] Hp].
      exists c', l. split.
      * apply in_tree_step. eauto.
      * split; [assumption |]. split; [now inversion Hl |].
        now rewrite last_cons in Hlast.
Qed.

Lemma turns_path table y cycle m :
  path table y cycle -> last cycle y = y -> cycle <> [] ->
  path table y (turns m cycle) /\ last (turns m cycle) y = y /\
  m <= List.length (turns m cycle).
Proof.
  intros Hp Hlast Hne. induction m as [| m [IH1 [IH2 IH3]]]; cbn [turns].
  - repeat split. lia.
  - split; [| split].
    + apply path_app. rewrite Hlast. auto.
    + now rewrite last_app, Hlast.
    + rewrite length_app. destruct cycle; [contradiction |]. simpl. lia.
Qed.

Lemma rounds_never_empty table work :
  rounds (S (List.length table)) table work <> [] ->
  forall k, rounds k table work <> [].
Proof.
  intros H k.
  destruct (rounds (S (List.length table)) table work) as [| x xs] eqn:E;
    [now contradiction H |].
  assert (Hx : In x (rounds (S (List.length table)) table work))
    by (rewrite E; now left).
  apply in_rounds in Hx. destruct Hx as [c [l [Hc [Hp [Hl _]]]]].
  assert (Hdup : ~ NoDup l).
  { intros Hnd.
    assert (Hle : List.length l <= List.length table).
    { apply NoDup_incl_length; [assumption |].
      intros z Hz. exact (path_child_in _ _ _ Hp z Hz). }
    lia. }
  destruct (not_NoDup (fun a b => match Contact_eq_dec a b with
                                  | left e => or_introl e
                                  | right n => or_intror n
                                  end) Hdup)
    as [y [l1 [l2 [l3 Heq]]]].
  assert (Hshape : l = (l1 ++ [y]) ++ (l2 ++ [y]) ++ l3).
  { rewrite Heq, <- !app_assoc. reflexivity. }
  rewrite Hshape in Hp.
  apply path_app in Hp. destruct Hp as [Hp1 Hp2].
  rewrite last_last in Hp2.
  apply path_app in Hp2. destruct Hp2 as [Hcycle _].
  destruct (turns_path table y (l2 ++ [y]) k Hcycle (last_last _ _ _))
    as [Ht1 [Ht2 Ht3]].
  { destruct l2; discriminate. }
  assert (Hlong : path table c ((l1 ++ [y]) ++ turns k (l2 ++ [y]))).
  { apply path_app. split; [assumption |]. now rewrite last_last. }
  apply (path_firstn table k) in Hlong.
  intros Hempty.
  assert (Hin : In (last (firstn k ((l1 ++ [y]) ++ turns k (l2 ++ [y]))) c)
                   (rounds k table work)).
  { apply in_rounds. exists c, (firstn k ((l1 ++ [y]) ++ turns k (l2 ++ [y]))).
    repeat split; try assumption.
    apply firstn_length_le. rewrite length_app. lia. }
  rewrite Hempty in Hin. contradiction.
Qed.

(** When [select_chain] gives up, no amount of fuel would have been enough:
    the recursive query of [getContactChain] does not terminate. *)
Lemma select_chain_none_forever root table :
  select_chain root table = None ->
  forall fuel,
    contact_tree fuel table
      (filter (fun c => Nat.eqb (id c) root && sql_is_null (deletedAt c)) table)
    = None.
Proof.
  unfold select_chain. intros H fuel.
  destruct (contact_tree (S (List.length table)) table _) eqn:E;
    [discriminate |].
  apply contact_tree_none_iff. apply rounds_never_empty.
  now apply contact_tree_none_iff.
Qed.

(* ------------------------------------------------------------------ *)
(** ** Well-formed tables *)

Lemma is_primary_not_secondary c : is_primary c = negb (is_secondary c).
Proof. unfold is_primary, is_secondary. now destruct (linkPrecedence c). Qed.

Lemma well_formed_empty : well_formed empty_store.
Proof.
  constructor; simpl; try contradiction. constructor.
Qed.

Lemma same_key_same_row (l : list Contact) a b :
  NoDup (map id l) -> In a l -> In b l -> id a = id b -> a = b.
Proof.
  induction l as [| x l IH]; simpl; [contradiction |].
  intros Hnd Ha Hb Hid. inversion Hnd as [| ? ? Hx Hl]; subst.
  destruct Ha as [Ha | Ha], Hb as [Hb | Hb]; subst.
  - reflexivity.
  - exfalso. apply Hx. rewrite Hid. now apply in_map.
  - exfalso. apply Hx. rewrite <- Hid. now apply in_map.
  - now apply IH.
Qed.

Section WellFormedTables.

Variable s : Store.
Hypothesis Hwf : well_formed s.

(** A row that is linked is a secondary, and what it is linked to is not
    linked itself: the tree under any row has depth at most one. *)
Lemma linked_row_is_secondary c k :
  In c (rows s) -> linkedId c = Some k -> is_secondary c = true.
Proof.
  intros Hin Hl. destruct (is_secondary c) eqn:Hs; [reflexivity |].
  rewrite (wf_roots Hwf c Hin) in Hl; [discriminate |].
  rewrite is_primary_not_secondary, Hs. reflexivity.
Qed.

Lemma tree_step_twice work :
  tree_step (rows s) (tree_step (rows s) work) = [].
Proof.
  destruct (tree_step (rows s) (tree_step (rows s) work)) as [| d ds] eqn:E;
    [reflexivity |].
  exfalso.
  assert (Hd : In d (tree_step (rows s) (tree_step (rows s) work)))
    by (rewrite E; now left).
  apply in_tree_step in Hd. destruct Hd as [Hdin [_ [c [Hc Hdc]]]].
  apply in_tree_step in Hc. destruct Hc as [Hcin [_ [ct [_ Hcl]]]].
  apply links_to_linked in Hdc. apply links_to_linked in Hcl.
  destruct (wf_leaves Hwf d Hdin (linked_row_is_secondary d _ Hdin Hdc))
    as [p [Hpin [Hdp Hp]]].
  assert (p = c).
  { apply (same_key_same_row (rows s)); try assumption.
    - exact (wf_keys Hwf).
    - congruence. }
  subst p. rewrite (wf_roots Hwf c Hcin Hp) in Hcl. discriminate.
Qed.

(** The recursive query finishes within the fuel: its result is the
    working table followed by one round. *)
Lemma contact_tree_well_formed work :
  contact_tree (S (List.length (rows s))) (rows s) work =
  Some (work ++ tree_step (rows s) work).
Proof.
  destruct work as [| w0 work]; [reflexivity |].
  cbn [contact_tree].
  destruct (tree_step (rows s) (w0 :: work)) as [| d ds] eqn:E.
  - now rewrite contact_tree_nil.
  - assert (Hd : In d (rows s)).
    { assert (H : In d (tree_step (rows s) (w0 :: work)))
        by (rewrite E; now left).
      apply in_tree_step in H. tauto. }
    destruct (rows s) as [| r rs] eqn:Hrows; [contradiction |].
    cbn [List.length contact_tree].
    rewrite <- E, <- Hrows, tree_step_twice, contact_tree_nil.
    now rewrite app_nil_r.
Qed.

Lemma select_chain_well_formed root :
  select_chain root (rows s) =
  Some (order_by_createdAt
          (let base := filter (fun c => Nat.eqb (id c) root
                                        && sql_is_null (deletedAt c))
                              (rows s) in
           base ++ tree_step (rows s) base)).
Proof.
  unfold select_chain. now rewrite contact_tree_well_formed.
Qed.

(** An insertion the handler makes keeps the shape. *)
Lemma insert_contact_well_formed now e p l prec c s' :
  insert_contact now e p l prec s = Accepted c s' ->
  match prec with
  | primary => l = None
  | secondary => exists q, In q (rows s) /\ l = Some (id q)
                           /\ is_primary q = true
  end ->
  well_formed s' /\ rows s' = rows s ++ [c] /\ linkPrecedence c = prec.
Proof.
  unfold insert_contact. intros H Hl.
  destruct (sendable p && sendable e && integer_ok l && in_integer (nextId s));
    [| discriminate].
  destruct (varchar 15 p) as [p' |]; [| discriminate].
  destruct (varchar 255 e) as [e' |]; [| discriminate].
  destruct (references_ok (rows s) l && negb (id_taken (rows s) (nextId s)));
    [| discriminate].
  inversion H; subst; clear H. simpl. split; [| split; reflexivity].
  constructor; simpl.
  - intros c Hc. apply in_app_or in Hc. destruct Hc as [Hc | [Hc | []]].
    + pose proof (wf_fresh Hwf c Hc). lia.
    + subst c. simpl. lia.
  - rewrite map_app. simpl. apply NoDup_app.
    + exact (wf_keys Hwf).
    + constructor; [intros [] | constructor].
    + intros k Hk [Hk' | []]. subst k. apply in_map_iff in Hk.
      destruct Hk as [c [Hid Hc]]. pose proof (wf_fresh Hwf c Hc). lia.
  - intros c Hc Hp. apply in_app_or in Hc. destruct Hc as [Hc | [Hc | []]].
    + exact (wf_roots Hwf c Hc Hp).
    + subst c. simpl. unfold is_primary in Hp. simpl in Hp.
      destruct prec; [assumption | discriminate].
  - intros c Hc Hsec. apply in_app_or in Hc. destruct Hc as [Hc | [Hc | []]].
    + destruct (wf_leaves Hwf c Hc Hsec) as [q [Hq Hrest]].
      exists q. split; [apply in_or_app; now left | exact Hrest].
    + subst c. unfold is_secondary in Hsec. simpl in *.
      destruct prec; [discriminate |].
      destruct Hl as [q [Hq Hrest]].
      exists q. split; [apply in_or_app; now left | exact Hrest].
Qed.

End WellFormedTables.

(* ------------------------------------------------------------------ *)
(** ** What each query function does to the table *)

Lemma truthy_sendable v : truthy v = false -> sendable v = true.
Proof. destruct v as [[| a s] |]; simpl; try reflexivity. discriminate. Qed.

(** The parameters of [getRelatedContacts] are acceptable exactly when both
    arguments are: a falsy argument holds no character at all. *)
Lemma values_sendable e p :
  forallb sendable ((if truthy e then [e] else [])
                    ++ (if truthy p then [p] else []))
  = sendable e && sendable p.
Proof.
  destruct (truthy e) eqn:He, (truthy p) eqn:Hp; cbn [app forallb].
  - now rewrite andb_true_r.
  - now rewrite (truthy_sendable p Hp).
  - now rewrite (truthy_sendable e He), andb_true_r.
  - now rewrite (truthy_sendable e He), (truthy_sendable p Hp).
Qed.

Lemma getRelatedContacts_db e p s0 :
  triple (on_db (eq s0)) (getRelatedContacts e p)
    (fun related => on_db (fun s => s = s0 /\
                             related = select_related e p (rows s0)))
    (fun f => on_db (fun s => s = s0 /\ f = StoreFailure)).
Proof.
  unfold getRelatedContacts. cbv zeta. apply triple_query_db.
  - intros s <-. auto.
  - intros s <-. destruct (forallb sendable _); auto.
Qed.

Lemma getContactChain_db c s0 :
  triple (on_db (eq s0)) (getContactChain c)
    (fun chain => on_db (fun s => s = s0 /\
                           select_chain (id c) (rows s0) = Some chain))
    (fun f => on_db (fun s => s = s0 /\ f <> IntegrityFault)).
Proof.
  apply triple_query_db.
  - intros s <-. split; [reflexivity | discriminate].
  - intros s <-. destruct (select_chain (id c) (rows s0)).
    + auto.
    + split; [reflexivity | discriminate].
Qed.

Lemma kept_refl s : kept s s.
Proof. split; [reflexivity | apply Nat.le_refl]. Qed.

Lemma insert_contact_refused now e p l prec s s' :
  insert_contact now e p l prec s = Refused s' -> kept s s'.
Proof.
  unfold insert_contact.
  destruct (sendable p && sendable e && integer_ok l && in_integer (nextId s));
    [| intros H; inversion H; apply kept_refl].
  destruct (varchar 15 p) as [p' |];
    [| intros H; inversion H; apply kept_refl].
  destruct (varchar 255 e) as [e' |];
    [| intros H; inversion H; apply kept_refl].
  destruct (references_ok (rows s) l && negb (id_taken (rows s) (nextId s)));
    [discriminate |].
  intros H. inversion H. split; simpl; [reflexivity | lia].
Qed.

Lemma createContact_db now e p l prec s0 :
  triple (on_db (eq s0)) (createContact now e p l prec)
    (fun c => on_db (fun s => insert_contact now e p l prec s0 = Accepted c s))
    (fun f => on_db (fun s => kept s0 s /\ f = StoreFailure)).
Proof.
  apply triple_query_db.
  - intros s <-. split; [apply kept_refl | reflexivity].
  - intros s <-.
    destruct (insert_contact now e p l prec s0) as [c s' | s'] eqn:E;
      [reflexivity |].
    split; [exact (insert_contact_refused _ _ _ _ _ _ _ E) | reflexivity].
Qed.

Lemma insert_contact_row now e p l prec s c s' :
  insert_contact now e p l prec s = Accepted c s' ->
  id c = nextId s /\ linkedId c = l /\ linkPrecedence c = prec /\
  createdAt c = now /\ updatedAt c = now /\ deletedAt c = None /\
  rows s' = rows s ++ [c] /\ nextId s' = S (nextId s).
Proof.
  unfold insert_contact.
  destruct (sendable p && sendable e && integer_ok l && in_integer (nextId s));
    [| discriminate].
  destruct (varchar 15 p) as [p' |]; [| discriminate].
  destruct (varchar 255 e) as [e' |]; [| discriminate].
  destruct (references_ok (rows s) l && negb (id_taken (rows s) (nextId s)));
    [| discriminate].
  intros H. inversion H; subst; clear H. simpl. repeat split.
Qed.


(* ------------------------------------------------------------------ *)
(** ** What the handler reads in a row it received *)

(** No row carries a property [linkPrecedence]. *)
Lemma sees_primary_never c : sees_primary c = false.
Proof. reflexivity. Qed.

Lemma find_sees_primary chain : find sees_primary chain = None.
Proof.
  induction chain as [| c chain IH]; [reflexivity |].
  cbn [find]. now rewrite sees_primary_never.
Qed.

Lemma buildResponse_js_row c : buildResponse_js [pg_row c] = inl IntegrityFault.
Proof. reflexivity. Qed.


(* ------------------------------------------------------------------ *)
(** ** One operation *)

Lemma valid_request req :
  truthy (reqEmail req) || truthy (reqPhoneNumber req) = true ->
  negb (truthy (reqEmail req)) && negb (truthy (reqPhoneNumber req)) = false.
Proof.
  destruct (truthy (reqEmail req)), (truthy (reqPhoneNumber req));
    simpl; congruence.
Qed.

(** With the connection holding, the operation is [served]. *)
Lemma identify_connected now req s :
  identify now req {| db := s; outage := None |}
  = (inl (fst (served now req s)),
     {| db := snd (served now req s); outage := None |}).
Proof.
  unfold identify, served, bind, getRelatedContacts, query. cbv zeta.
  cbn [outage db]. rewrite values_sendable.
  destruct (sendable (reqEmail req) && sendable (reqPhoneNumber req));
    [| reflexivity].
  unfold consolidate, bind, expanded_chain.
  destruct (select_related (reqEmail req) (reqPhoneNumber req) (rows s))
    as [| first others].
  - unfold ret at 1. cbn [find].
    unfold createContact, query. cbn [outage db].
    destruct (insert_contact now (reqEmail req) (reqPhoneNumber req)
                             None primary s) as [c s1 | s1]; reflexivity.
  - unfold getContactChain, query. cbn [outage db].
    destruct (select_chain (id first) (rows s)) as [chain |]; [| reflexivity].
    rewrite find_sees_primary.
    unfold createContact, query. cbn [outage db].
    destruct (insert_contact now (reqEmail req) (reqPhoneNumber req)
                             None primary s) as [c s1 | s1]; reflexivity.
Qed.

(** Wherever the connection is lost: the operation never returns a body;
    it ends with the integrity fault exactly after an accepted insertion,
    and any other fault leaves the rows as they were. *)
Lemma identify_outcome now req s0 :
  triple (on_db (eq s0)) (identify now req)
    (fun _ _ => False)
    (fun f => on_db (fun s =>
       (f <> IntegrityFault /\ kept s0 s) \/
       (f = IntegrityFault /\
        exists c, insert_contact now (reqEmail req) (reqPhoneNumber req)
                                 None primary s0 = Accepted c s))).
Proof.
  unfold identify.
  apply triple_bind with (R := fun _ => on_db (eq s0)).
  - apply triple_weaken
      with (1 := getRelatedContacts_db (reqEmail req) (reqPhoneNumber req) s0).
    + auto.
    + intros related w [Hs _]. symmetry. exact Hs.
    + intros f w [Hs Hf]. left. subst f. split; [discriminate |].
      unfold on_db in Hs. rewrite Hs. apply kept_refl.
  - intros related. unfold consolidate.
    apply triple_bind with (R := fun _ => on_db (eq s0)).
    + destruct related as [| first others].
      * apply triple_ret. auto.
      * apply triple_weaken with (1 := getContactChain_db first s0).
        -- auto.
        -- intros chain w [Hs _]. symmetry. exact Hs.
        -- intros f w [Hs Hf]. left. split; [assumption |].
           unfold on_db in Hs. rewrite Hs. apply kept_refl.
    + intros chain. rewrite find_sees_primary.
      apply triple_bind
        with (R := fun c => on_db (fun s =>
                     insert_contact now (reqEmail req) (reqPhoneNumber req)
                                    None primary s0 = Accepted c s)).
      * apply triple_weaken
          with (1 := createContact_db now (reqEmail req) (reqPhoneNumber req)
                                      None primary s0).
        -- auto.
        -- auto.
        -- intros f w [Hs Hf]. left. subst f. split; [discriminate | exact Hs].
      * intros c w Hw. rewrite buildResponse_js_row. cbn.
        right. split; [reflexivity |]. exists c. exact Hw.
Qed.

Lemma identify_faults now req w :
  exists f w',
    identify now req w = (inl f, w') /\
    ((f <> IntegrityFault /\ kept (db w) (db w')) \/
     (f = IntegrityFault /\
      exists c, insert_contact now (reqEmail req) (reqPhoneNumber req)
                               None primary (db w) = Accepted c (db w'))).
Proof.
  pose proof (identify_outcome now req (db w) w eq_refl) as H.
  destruct (identify now req w) as [[f | body] w']; [| contradiction].
  exists f, w'. split; [reflexivity | exact H].
Qed.

(** The table after a request: its rows as they were, or with the one row
    inserted, and then the reply is 500. *)
Lemma post_identify_stores now fails req s :
  kept s (snd (post_identify now fails req s)) \/
  exists c,
    insert_contact now (reqEmail req) (reqPhoneNumber req) None primary s
    = Accepted c (snd (post_identify now fails req s)) /\
    fst (post_identify now fails req s) = InternalError500.
Proof.
  unfold post_identify.
  destruct (negb (truthy (reqEmail req)) && negb (truthy (reqPhoneNumber req)));
    [left; apply kept_refl |].
  destruct (identify_faults now req {| db := s; outage := fails |})
    as [f [w' [Heq [[Hf Hdb] | [Hf [c Hc]]]]]]; rewrite Heq; cbn [fst snd].
  - left. exact Hdb.
  - right. exists c. subst f. split; [exact Hc | reflexivity].
Qed.

(* ------------------------------------------------------------------ *)
(** ** The shape of the tables, kept by every operation *)

Lemma star_table_well_formed : well_formed star_table.
Proof.
  constructor; simpl.
  - intros c [<- | [<- | []]]; simpl; lia.
  - repeat constructor; simpl; intuition discriminate.
  - intros c [<- | [<- | []]] H; [reflexivity | discriminate].
  - intros c [<- | [<- | []]] H; [discriminate |].
    exists (mkContact 1 None ax None primary 10 10 None). simpl. auto.
Qed.

Lemma well_formed_kept s s' : well_formed s -> kept s s' -> well_formed s'.
Proof.
  intros Hwf [Hrows Hnext]. constructor; rewrite Hrows.
  - intros c Hc. pose proof (wf_fresh Hwf c Hc). lia.
  - exact (wf_keys Hwf).
  - exact (wf_roots Hwf).
  - exact (wf_leaves Hwf).
Qed.

Lemma post_identify_well_formed now fails req s :
  well_formed s -> well_formed (snd (post_identify now fails req s)).
Proof.
  intros Hwf.
  destruct (post_identify_stores now fails req s) as [Hkept | [c [Hins _]]].
  - exact (well_formed_kept _ _ Hwf Hkept).
  - exact (proj1 (insert_contact_well_formed s Hwf _ _ _ _ _ _ _ Hins eq_refl)).
Qed.

Lemma run_well_formed history : well_formed (run history).
Proof.
  unfold run.
  assert (H : forall s, well_formed s -> well_formed (fold_left serve history s)).
  { induction history as [| c history IH]; intros s Hs; [exact Hs |].
    cbn [fold_left]. apply IH. unfold serve.
    now apply post_identify_well_formed. }
  apply H, well_formed_empty.
Qed.

Lemma fresh_id_not_taken s : well_formed s -> id_taken (rows s) (nextId s) = false.
Proof.
  intros Hwf. destruct (id_taken (rows s) (nextId s)) eqn:E; [| reflexivity].
  apply id_taken_iff in E. destruct E as [c [Hin Hid]].
  pose proof (wf_fresh Hwf c Hin). lia.
Qed.

Lemma post_identify_links_resolve now fails req s :
  links_resolve s -> links_resolve (snd (post_identify now fails req s)).
Proof.
  intros H.
  destruct (post_identify_stores now fails req s)
    as [[Hsame _] | [c [Hins _]]].
  { unfold links_resolve. rewrite Hsame. exact H. }
  destruct (insert_contact_row _ _ _ _ _ _ _ _ Hins)
    as [_ [_ [Hprec [_ [_ [_ [Hrows _]]]]]]].
  intros d Hd Hdel Hsec. rewrite Hrows in Hd |- *.
  apply in_app_or in Hd. destruct Hd as [Hd | [<- | []]].
  - destruct (H d Hd Hdel Hsec) as [q [Hq Hrest]].
    exists q. split; [apply in_or_app; now left | exact Hrest].
  - unfold is_secondary in Hsec. rewrite Hprec in Hsec. discriminate.
Qed.

Lemma run_links_resolve history : links_resolve (run history).
Proof.
  unfold run.
  assert (H : forall s, links_resolve s ->
                        links_resolve (fold_left serve history s)).
  { induction history as [| c history IH]; intros s Hs; [exact Hs |].
    cbn [fold_left]. apply IH. unfold serve.
    now apply post_identify_links_resolve. }
  apply H. intros c [].
Qed.

(* ================================================================== *)
(** * The claims of the specification *)

(* ------------------------------------------------------------------ *)
(** ** The demotion statement *)

Lemma updateContactToSecondary_rows now contactId linked w :
  nextId (db (snd (updateContactToSecondary now contactId linked w))) =
  nextId (db w) /\
  (rows (db (snd (updateContactToSecondary now contactId linked w))) =
   rows (db w) \/
   rows (db (snd (updateContactToSecondary now contactId linked w))) =
   map (fun c => if Nat.eqb (id c) contactId then demote_row now linked c else c)
       (rows (db w))).
Proof.
  unfold updateContactToSecondary, query, update_to_secondary.
  destruct (outage w) as [[| k] |];
    try (destruct (id_taken (rows (db w)) contactId
                   && negb (references_ok (rows (db w)) (Some linked))));
    simpl; auto.
Qed.

(** C10.  [updateContactToSecondary] changes nothing but [linkPrecedence],
    [linkedId] and [updatedAt] of the rows whose [id] is the given one: the
    table keeps its length and its sequence, every row stays at its place
    with the same [id], [email], [phoneNumber], [createdAt] and [deletedAt],
    and a row with another [id] is not changed at all. *)
Theorem updateContactToSecondary_frame now contactId linked w :
  let w' := snd (updateContactToSecondary now contactId linked w) in
  List.length (rows (db w')) = List.length (rows (db w)) /\
  nextId (db w') = nextId (db w) /\
  forall i r, nth_error (rows (db w)) i = Some r ->
    exists r', nth_error (rows (db w')) i = Some r' /\
      id r' = id r /\ email r' = email r /\ phoneNumber r' = phoneNumber r /\
      createdAt r' = createdAt r /\ deletedAt r' = deletedAt r /\
      (id r <> contactId -> r' = r).
Proof.
  intros w'. subst w'.
  destruct (updateContactToSecondary_rows now contactId linked w) as [Hn [Hr | Hr]];
    rewrite Hr; (split; [| split; [exact Hn |]]).
  - reflexivity.
  - intros i r Hi. exists r. repeat split; auto.
  - apply length_map.
  - intros i r Hi. eexists. split.
    + apply map_nth_error. exact Hi.
    + destruct (Nat.eqb (id r) contactId) eqn:E; simpl.
      * apply Nat.eqb_eq in E. repeat split; auto. intros Hne. contradiction.
      * repeat split; auto.
Qed.

Lemma updateContactToSecondary_frame_witness :
  nth_error (rows (db demotion_example)) 2
  = Some (mkContact 3 (Some "888"%string) (Some "b@x.com"%string) (Some 2)
                    secondary 30 30 None) /\
  exists r',
    nth_error
      (rows (db (snd (updateContactToSecondary 40 2 1 demotion_example)))) 2
    = Some r' /\
    id r' = 3 /\ email r' = Some "b@x.com"%string /\
    phoneNumber r' = Some "888"%string /\
    createdAt r' = 30 /\ deletedAt r' = None /\
    (3 <> 2 -> r' = mkContact 3 (Some "888"%string) (Some "b@x.com"%string)
                              (Some 2) secondary 30 30 None).
Proof.
  split; [reflexivity |].
  destruct (updateContactToSecondary_frame 40 2 1 demotion_example)
    as [_ [_ H]].
  exact (H 2 _ eq_refl).
Defined.

(* ------------------------------------------------------------------ *)
(** ** The merge of clusters *)

(** C1 does not hold of the code.  With contact 1 ([a@x.com]) and contact 2
    ([777]) in the table, both primaries, the observation [a@x.com / 777]
    matches both.  The handler demotes neither and links nothing: it
    inserts contact 3, a third primary without [linkedId], and answers 500;
    the two rows that were there are unchanged. *)
Theorem bridging_observation_merges_nothing :
  let before := run [obs ax None 10; obs None p777 20] in
  rows before = [ mkContact 1 None ax None primary 10 10 None;
                  mkContact 2 p777 None None primary 20 20 None ] /\
  select_related ax p777 (rows before) = rows before /\
  post_identify 30 None (mkRequest ax p777) before
  = (InternalError500,
     {| rows := rows before ++ [mkContact 3 p777 ax None primary 30 30 None];
        nextId := 4 |}).
Proof. vm_compute. repeat split. Qed.

(** C2 does not hold of the code.  After the three observations [a@x.com],
    [777] and [a@x.com / 777] on the empty table, contacts 1 and 2 are both
    primaries although contact 3 connects them: it has the email of the one
    and the phone number of the other. *)
Theorem cluster_with_two_primaries :
  exists p q,
    In p (rows (run bridge_history)) /\ In q (rows (run bridge_history)) /\
    same_cluster (rows (run bridge_history)) p q /\
    is_primary p = true /\ is_primary q = true /\ id p <> id q.
Proof.
  exists (mkContact 1 None ax None primary 10 10 None),
         (mkContact 2 p777 None None primary 20 20 None).
  split; [vm_compute; tauto |]. split; [vm_compute; tauto |].
  split; [| repeat split; simpl; lia].
  apply rt_trans with (y := mkContact 3 p777 ax None primary 30 30 None);
    apply rt_step; unfold linked_by_attribute;
    repeat split; try reflexivity; vm_compute; tauto.
Qed.

(** C3 does not hold of the code.  In [star_table] contact 2 is a secondary
    of contact 1 and the only row with phone number 555.  The chain read
    for it is contact 2 alone, without its primary, and the observation
    [555] inserts a new primary, contact 3; the answer is 500. *)
Theorem phone_of_secondary_creates_primary :
  select_related None p555 (rows star_table)
  = [mkContact 2 p555 ax (Some 1) secondary 20 20 None] /\
  select_chain 2 (rows star_table)
  = Some [mkContact 2 p555 ax (Some 1) secondary 20 20 None] /\
  post_identify 30 None (mkRequest None p555) star_table
  = (InternalError500,
     {| rows := [mkContact 1 None ax None primary 10 10 None;
                 mkContact 2 p555 ax (Some 1) secondary 20 20 None;
                 mkContact 3 p555 None None primary 30 30 None];
        nextId := 4 |}).
Proof. vm_compute. repeat split. Qed.

(** C4 does not hold of the code.  The observation [a@x.com] applied twice
    to the empty table inserts a row each time, the second a copy of the
    first under a new id, and neither application returns an identity:
    both are answered 500. *)
Theorem repeated_observation_inserts_again :
  let first := post_identify 10 None (mkRequest ax None) empty_store in
  let second := post_identify 20 None (mkRequest ax None) (snd first) in
  fst first = InternalError500 /\
  fst second = InternalError500 /\
  rows (snd first) = [mkContact 1 None ax None primary 10 10 None] /\
  rows (snd second) = [mkContact 1 None ax None primary 10 10 None;
                       mkContact 2 None ax None primary 20 20 None].
Proof. vm_compute. repeat split. Qed.

(** C5 does not hold of the code.  For a cluster made of one primary that
    has an email and no phone number, [phoneNumbers] is the one-element list
    holding the primary's [null], not the empty list: so on a contact of
    the declared interface, and so on the object that carries its
    properties. *)
Theorem primary_null_is_listed :
  buildResponse [mkContact 1 None ax None primary 10 10 None]
  = inr {| primaryContatctId := 1; emails := [ax]; phoneNumbers := [None];
           secondaryContactIds := [] |} /\
  buildResponse_js [typed (mkContact 1 None ax None primary 10 10 None)]
  = inr {| json_primaryContatctId := JsNumber 1;
           json_emails := [JsString "a@x.com"];
           json_phoneNumbers := [JsNull];
           json_secondaryContactIds := [] |}.
Proof. vm_compute. repeat split. Qed.

(* ------------------------------------------------------------------ *)
(** ** Failures *)







(* ------------------------------------------------------------------ *)
(** ** Invariants *)

(** C8.  After every operation, every secondary that is not deleted is
    linked to a row of the table that is a primary.  An operation keeps it:
    if it holds before a request, whatever the table, the request, the
    clock reading and the statement at which the connection is lost, it
    holds afterwards.  So it holds after any history of operations on the
    initially empty table. *)
Theorem secondary_links_to_primary :
  (forall now fails req s,
      links_resolve s -> links_resolve (snd (post_identify now fails req s))) /\
  (forall history, links_resolve (run history)).
Proof.
  split; [exact post_identify_links_resolve | exact run_links_resolve].
Qed.

Lemma secondary_links_to_primary_witness :
  links_resolve (snd (post_identify 30 None (mkRequest None p555) star_table)).
Proof.
  destruct secondary_links_to_primary as [H _].
  apply (H 30 None (mkRequest None p555) star_table).
  intros c [<- | [<- | []]] _ Hsec; [discriminate |].
  exists (mkContact 1 None ax None primary 10 10 None). simpl. auto.
Defined.

(* ------------------------------------------------------------------ *)
(** ** The order of the matched contacts *)





(* ================================================================== *)
(** * Further properties of the functions of [index.ts] *)

(* ------------------------------------------------------------------ *)
(** ** [buildResponse] and its sets *)

Lemma opt_string_eqb_eq a b : opt_string_eqb a b = true <-> a = b.
Proof.
  destruct a as [x |], b as [y |]; simpl; split; intros H;
    try discriminate; try reflexivity.
  - apply String.eqb_eq in H. now subst.
  - inversion H. apply String.eqb_refl.
Qed.

Lemma seen_iff x acc : existsb (opt_string_eqb x) acc = true <-> In x acc.
Proof.
  rewrite existsb_exists. split.
  - intros [y [Hy He]]. apply opt_string_eqb_eq in He. now subst.
  - intros Hx. exists x. split; [assumption | now apply opt_string_eqb_eq].
Qed.

(** The loop of [new Set(...)], from a set [acc] already built. *)
Lemma set_fold_spec l :
  forall acc, NoDup acc ->
    let out := fold_left (fun acc x => if existsb (opt_string_eqb x) acc
                                       then acc else acc ++ [x]) l acc in
    NoDup out /\
    (forall x, In x out <-> In x acc \/ In x l) /\
    exists rest, out = acc ++ rest /\ forall x, In x rest -> In x l.
Proof.
  induction l as [| y l IH]; intros acc Hnd; cbn [fold_left].
  - split; [assumption |]. split; [intros x; simpl; tauto |].
    exists []. split; [now rewrite app_nil_r | intros x []].
  - destruct (existsb (opt_string_eqb y) acc) eqn:E.
    + apply seen_iff in E.
      destruct (IH acc Hnd) as [H1 [H2 [rest [H3 H4]]]].
      split; [assumption |]. split.
      * intros x. rewrite H2. simpl. intuition (subst; auto).
      * exists rest. split; [assumption |]. intros x Hx. right. auto.
    + assert (Hy : ~ In y acc).
      { intros Hy. apply seen_iff in Hy. congruence. }
      assert (Hnd' : NoDup (acc ++ [y])).
      { apply NoDup_app; [assumption | repeat constructor; intros [] |].
        intros a Ha [<- | []]. contradiction. }
      destruct (IH (acc ++ [y]) Hnd') as [H1 [H2 [rest [H3 H4]]]].
      split; [assumption |]. split.
      * intros x. rewrite H2, in_app_iff. simpl. tauto.
      * exists (y :: rest). split.
        -- rewrite H3, <- app_assoc. reflexivity.
        -- intros x [<- | Hx]; [now left | right; auto].
Qed.

Lemma set_from_spec x l :
  NoDup (set_from (x :: l)) /\
  (forall y, In y (set_from (x :: l)) <-> y = x \/ In y l) /\
  exists rest, set_from (x :: l) = x :: rest /\ forall y, In y rest -> In y l.
Proof.
  unfold set_from. cbn [fold_left existsb app].
  destruct (set_fold_spec l [x]) as [H1 [H2 [rest [H3 H4]]]].
  { repeat constructor. intros []. }
  cbv zeta in *. split; [assumption |]. split.
  - intros y. rewrite H2. simpl. intuition.
  - exists rest. split; assumption.
Qed.

(** X1.  In an answer, [emails] and [phoneNumbers] hold no value twice;
    their first entry is the email, respectively the phone number, of the
    first primary of the list, whatever it is, and no entry after the first
    is null or empty. *)
Theorem buildResponse_lists_distinct contacts body :
  buildResponse contacts = inr body ->
  exists p,
    find is_primary contacts = Some p /\
    primaryContatctId body = id p /\
    NoDup (emails body) /\ NoDup (phoneNumbers body) /\
    (exists rest, emails body = email p :: rest /\
                  forall x, In x rest -> truthy x = true) /\
    (exists rest, phoneNumbers body = phoneNumber p :: rest /\
                  forall x, In x rest -> truthy x = true).
Proof.
  unfold buildResponse. destruct (find is_primary contacts) as [p |];
    [| discriminate].
  intros H. inversion H; subst body; clear H. cbn [primaryContatctId emails
    phoneNumbers]. exists p. split; [reflexivity |]. split; [reflexivity |].
  destruct (set_from_spec (email p)
              (filter truthy (map email (filter is_secondary contacts))))
    as [He1 [_ [erest [He3 He4]]]].
  destruct (set_from_spec (phoneNumber p)
              (filter truthy (map phoneNumber (filter is_secondary contacts))))
    as [Hp1 [_ [prest [Hp3 Hp4]]]].
  repeat split; try assumption.
  - exists erest. split; [assumption |]. intros x Hx.
    apply He4, filter_In in Hx. tauto.
  - exists prest. split; [assumption |]. intros x Hx.
    apply Hp4, filter_In in Hx. tauto.
Qed.

Lemma buildResponse_lists_distinct_witness :
  exists p,
    find is_primary (rows two_primaries_chain) = Some p /\
    primaryContatctId
      {| primaryContatctId := 1; emails := [ax; Some "b@x.com"%string];
         phoneNumbers := [None; Some "888"%string];
         secondaryContactIds := [3] |} = id p /\
    NoDup [ax; Some "b@x.com"%string] /\
    NoDup [None; Some "888"%string] /\
    (exists rest, [ax; Some "b@x.com"%string] = email p :: rest /\
                  forall x, In x rest -> truthy x = true) /\
    (exists rest, [None; Some "888"%string] = phoneNumber p :: rest /\
                  forall x, In x rest -> truthy x = true).
Proof.
  apply (buildResponse_lists_distinct (rows two_primaries_chain)
           {| primaryContatctId := 1; emails := [ax; Some "b@x.com"%string];
              phoneNumbers := [None; Some "888"%string];
              secondaryContactIds := [3] |}).
  reflexivity.
Defined.

Lemma buildResponse_values contacts body :
  buildResponse contacts = inr body ->
  exists p,
    find is_primary contacts = Some p /\
    (forall x, In x (emails body) <->
               x = email p \/
               exists c, In c contacts /\ is_secondary c = true /\
                         email c = x /\ truthy x = true) /\
    (forall x, In x (phoneNumbers body) <->
               x = phoneNumber p \/
               exists c, In c contacts /\ is_secondary c = true /\
                         phoneNumber c = x /\ truthy x = true) /\
    secondaryContactIds body = map id (filter is_secondary contacts).
Proof.
  unfold buildResponse. destruct (find is_primary contacts) as [p |];
    [| discriminate].
  intros H. inversion H; subst body; clear H.
  cbn [primaryContatctId emails phoneNumbers secondaryContactIds].
  exists p. split; [reflexivity |].
  assert (Hvalues : forall (field : Contact -> option string) x,
             In x (filter truthy (map field (filter is_secondary contacts))) <->
             exists c, In c contacts /\ is_secondary c = true /\
                       field c = x /\ truthy x = true).
  { intros field x. rewrite filter_In, in_map_iff. split.
    - intros [[c [Hc Hin]] Ht]. apply filter_In in Hin. exists c. tauto.
    - intros [c [Hin [Hs [Hf Ht]]]]. split; [| assumption].
      exists c. split; [assumption |]. apply filter_In. tauto. }
  split; [| split; [| reflexivity]].
  - intros x.
    destruct (set_from_spec (email p)
                (filter truthy (map email (filter is_secondary contacts))))
      as [_ [H2 _]].
    rewrite H2, Hvalues. reflexivity.
  - intros x.
    destruct (set_from_spec (phoneNumber p)
                (filter truthy (map phoneNumber (filter is_secondary contacts))))
      as [_ [H2 _]].
    rewrite H2, Hvalues. reflexivity.
Qed.

(** X2.  An answer lists exactly the values of the contacts it is built
    from: a value is in [emails] if and only if it is the email of the first
    primary or the non-empty email of a secondary of the list, and likewise
    for [phoneNumbers]; [secondaryContactIds] are the ids of the secondaries
    in the order of the list.  A primary other than the first contributes
    nothing. *)
Theorem buildResponse_covers contacts body :
  buildResponse contacts = inr body ->
  exists p,
    find is_primary contacts = Some p /\
    (forall x, In x (emails body) <->
               x = email p \/
               exists c, In c contacts /\ is_secondary c = true /\
                         email c = x /\ truthy x = true) /\
    (forall x, In x (phoneNumbers body) <->
               x = phoneNumber p \/
               exists c, In c contacts /\ is_secondary c = true /\
                         phoneNumber c = x /\ truthy x = true) /\
    secondaryContactIds body = map id (filter is_secondary contacts).
Proof. exact (buildResponse_values contacts body). Qed.

Lemma buildResponse_covers_witness :
  exists p,
    find is_primary (rows star_table) = Some p /\
    (forall x, In x [ax] <->
               x = email p \/
               exists c, In c (rows star_table) /\
                         is_secondary c = true /\
                         email c = x /\ truthy x = true) /\
    (forall x, In x [None; p555] <->
               x = phoneNumber p \/
               exists c, In c (rows star_table) /\
                         is_secondary c = true /\
                         phoneNumber c = x /\ truthy x = true) /\
    [2] = map id (filter is_secondary (rows star_table)).
Proof.
  apply (buildResponse_covers (rows star_table)
           {| primaryContatctId := 1; emails := [ax];
              phoneNumbers := [None; p555]; secondaryContactIds := [2] |}).
  vm_compute. reflexivity.
Defined.

(** X3.  [buildResponse] throws exactly when no contact of the list is a
    primary, the empty list included, and what it throws is the integrity
    fault. *)
Theorem buildResponse_throws_iff contacts :
  buildResponse contacts = inl IntegrityFault <->
  (forall c, In c contacts -> is_primary c = false).
Proof.
  unfold buildResponse. split.
  - intros H. destruct (find is_primary contacts) eqn:E; [discriminate |].
    exact (find_none _ _ E).
  - intros Hnone. destruct (find is_primary contacts) as [p |] eqn:E.
    + apply find_some in E. destruct E as [Hin Hp].
      rewrite (Hnone p Hin) in Hp. discriminate.
    + reflexivity.
Qed.

(* ------------------------------------------------------------------ *)
(** ** The statements one by one *)

Lemma sql_eq_iff column v : sql_eq column v = true <-> column = Some v.
Proof.
  unfold sql_eq. destruct column as [x |]; split; intros H; try discriminate.
  - apply String.eqb_eq in H. now subst.
  - inversion H. apply String.eqb_refl.
Qed.

Lemma sql_is_null_iff {A : Type} (column : option A) :
  sql_is_null column = true <-> column = None.
Proof. destruct column; simpl; split; intros H; congruence. Qed.

Lemma in_select_related e p table c :
  In c (select_related e p table) <->
  In c table /\ deletedAt c = None /\
  ((truthy e = true /\ email c = e) \/ (truthy p = true /\ phoneNumber c = p)).
Proof.
  unfold select_related. rewrite filter_In, andb_true_iff, orb_true_iff,
    sql_is_null_iff.
  assert (He : (match e with
                | Some v => truthy e && sql_eq (email c) v
                | None => false
                end) = true <-> truthy e = true /\ email c = e).
  { destruct e as [v |]; [| simpl; split; [discriminate | tauto]].
    rewrite andb_true_iff, sql_eq_iff. reflexivity. }
  assert (Hp : (match p with
                | Some v => truthy p && sql_eq (phoneNumber c) v
                | None => false
                end) = true <-> truthy p = true /\ phoneNumber c = p).
  { destruct p as [v |]; [| simpl; split; [discriminate | tauto]].
    rewrite andb_true_iff, sql_eq_iff. reflexivity. }
  rewrite He, Hp. reflexivity.
Qed.

(** X4.  [getRelatedContacts] does not change the table, and when it
    returns, it returns exactly the rows that are not deleted and whose email
    is the given non-empty email or whose phone number is the given non-empty
    phone number; with neither, it returns nothing.  A null or empty argument
    matches no row, not even one whose column is null or empty. *)
Theorem getRelatedContacts_exact e p w related w' :
  getRelatedContacts e p w = (inr related, w') ->
  db w' = db w /\
  (forall c, In c related <->
             In c (rows (db w)) /\ deletedAt c = None /\
             ((truthy e = true /\ email c = e) \/
              (truthy p = true /\ phoneNumber c = p))) /\
  (truthy e = false -> truthy p = false -> related = []).
Proof.
  unfold getRelatedContacts, query. cbv zeta. intros H.
  assert (Hrel : db w' = db w /\ related = select_related e p (rows (db w))).
  { destruct (outage w) as [[| k] |]; try discriminate;
      destruct (forallb sendable _); inversion H; subst; auto. }
  destruct Hrel as [Hdb ->]. split; [assumption |]. split.
  - intros c. apply in_select_related.
  - intros He Hp.
    destruct (select_related e p (rows (db w))) as [| c l] eqn:E;
      [reflexivity |].
    assert (Hc : In c (select_related e p (rows (db w))))
      by (rewrite E; now left).
    apply in_select_related in Hc. destruct Hc as [_ [_ [[Ht _] | [Ht _]]]];
      congruence.
Qed.

Lemma getRelatedContacts_exact_witness :
  db {| db := star_table; outage := None |} =
  db {| db := star_table; outage := None |} /\
  (forall c, In c [mkContact 2 p555 ax (Some 1) secondary 20 20 None] <->
             In c (rows star_table) /\ deletedAt c = None /\
             ((truthy None = true /\ email c = None) \/
              (truthy p555 = true /\ phoneNumber c = p555))) /\
  (truthy None = false -> truthy p555 = false ->
   [mkContact 2 p555 ax (Some 1) secondary 20 20 None] = []).
Proof.
  apply (getRelatedContacts_exact None p555
           {| db := star_table; outage := None |}
           [mkContact 2 p555 ax (Some 1) secondary 20 20 None]
           {| db := star_table; outage := None |}).
  vm_compute. reflexivity.
Defined.

Lemma substring_prefix_length n :
  forall s, n <= String.length s -> String.length (substring 0 n s) = n.
Proof.
  induction n as [| n IH]; intros s Hle.
  - destruct s; reflexivity.
  - destruct s as [| a s]; simpl in *; [lia |].
    rewrite IH; [reflexivity | lia].
Qed.

Lemma varchar_fits n v v' : varchar n v = Some v' -> fits n v' = true.
Proof.
  unfold varchar, fits. destruct v as [s |]; [| intros H; now inversion H].
  destruct (String.length s <=? n) eqn:E.
  - intros H. inversion H. assumption.
  - destruct (all_spaces _); [| discriminate].
    intros H. inversion H. apply Nat.leb_gt in E.
    rewrite substring_prefix_length; [apply Nat.leb_refl | lia].
Qed.

Lemma varchar_keeps n v : fits n v = true -> varchar n v = Some v.
Proof.
  unfold varchar, fits. destruct v as [s |]; [| reflexivity].
  now intros ->.
Qed.

(** X5.  A contact that [createContact] returns is the row it appended: it
    carries the next value of the sequence, which no row had, the given
    [linkedId] and precedence, the clock reading as [createdAt] and
    [updatedAt], and is not deleted; the rows that were there are unchanged.
    Its phone number has at most 15 characters and its email at most 255;
    they are the given ones whenever those fit, and then
    [getRelatedContacts] with the same non-empty email or phone number finds
    the contact. *)
Theorem createContact_then_lookup now e p l prec w c w1 :
  createContact now e p l prec w = (inr c, w1) ->
  rows (db w1) = rows (db w) ++ [c] /\
  id c = nextId (db w) /\ id_taken (rows (db w)) (id c) = false /\
  linkedId c = l /\ linkPrecedence c = prec /\
  createdAt c = now /\ updatedAt c = now /\ deletedAt c = None /\
  fits 15 (phoneNumber c) = true /\ fits 255 (email c) = true /\
  (fits 15 p = true -> phoneNumber c = p) /\
  (fits 255 e = true -> email c = e) /\
  ((truthy e = true /\ fits 255 e = true) \/
   (truthy p = true /\ fits 15 p = true) ->
   In c (select_related e p (rows (db w1)))).
Proof.
  unfold createContact, query. intros H.
  assert (Hins : insert_contact now e p l prec (db w) = Accepted c (db w1)).
  { destruct (outage w) as [[| k] |]; try discriminate;
      destruct (insert_contact now e p l prec (db w)) as [c0 s0 | s0];
      inversion H; subst; reflexivity. }
  clear H. unfold insert_contact in Hins.
  destruct (sendable p && sendable e && integer_ok l && in_integer (nextId (db w)));
    [| discriminate].
  destruct (varchar 15 p) as [p' |] eqn:Hp; [| discriminate].
  destruct (varchar 255 e) as [e' |] eqn:He; [| discriminate].
  destruct (references_ok (rows (db w)) l) eqn:Hfk; [| discriminate].
  destruct (id_taken (rows (db w)) (nextId (db w))) eqn:Hpk; [discriminate |].
  cbn [andb negb] in Hins. injection Hins as Hc Hs.
  rewrite <- Hs, <- Hc. cbn [rows id linkedId linkPrecedence createdAt
    updatedAt deletedAt phoneNumber email].
  assert (Hpfit : fits 15 p = true -> p' = p).
  { intros Hf. rewrite (varchar_keeps _ _ Hf) in Hp. now inversion Hp. }
  assert (Hefit : fits 255 e = true -> e' = e).
  { intros Hf. rewrite (varchar_keeps _ _ Hf) in He. now inversion He. }
  repeat split; try assumption; try reflexivity.
  - exact (varchar_fits _ _ _ Hp).
  - exact (varchar_fits _ _ _ He).
  - intros Hfound. apply in_select_related. split.
    + apply in_or_app. right. now left.
    + split; [reflexivity |]. cbn [email phoneNumber].
      destruct Hfound as [[Ht Hf] | [Ht Hf]].
      * left. split; [assumption | now apply Hefit].
      * right. split; [assumption | now apply Hpfit].
Qed.

Lemma createContact_then_lookup_witness :
  rows (db {| db := {| rows := rows star_table
                               ++ [mkContact 3 p777 None None primary 30 30 None];
                       nextId := 4 |};
              outage := None |})
  = rows (db {| db := star_table; outage := None |})
    ++ [mkContact 3 p777 None None primary 30 30 None] /\
  id (mkContact 3 p777 None None primary 30 30 None)
  = nextId (db {| db := star_table; outage := None |}) /\
  id_taken (rows (db {| db := star_table; outage := None |}))
           (id (mkContact 3 p777 None None primary 30 30 None)) = false /\
  linkedId (mkContact 3 p777 None None primary 30 30 None) = None /\
  linkPrecedence (mkContact 3 p777 None None primary 30 30 None) = primary /\
  createdAt (mkContact 3 p777 None None primary 30 30 None) = 30 /\
  updatedAt (mkContact 3 p777 None None primary 30 30 None) = 30 /\
  deletedAt (mkContact 3 p777 None None primary 30 30 None) = None /\
  fits 15 (phoneNumber (mkContact 3 p777 None None primary 30 30 None)) = true /\
  fits 255 (email (mkContact 3 p777 None None primary 30 30 None)) = true /\
  (fits 15 p777 = true ->
   phoneNumber (mkContact 3 p777 None None primary 30 30 None) = p777) /\
  (fits 255 None = true ->
   email (mkContact 3 p777 None None primary 30 30 None) = None) /\
  ((truthy None = true /\ fits 255 None = true) \/
   (truthy p777 = true /\ fits 15 p777 = true) ->
   In (mkContact 3 p777 None None primary 30 30 None)
      (select_related None p777
         (rows (db {| db := {| rows := rows star_table
                                       ++ [mkContact 3 p777 None None primary
                                                     30 30 None];
                               nextId := 4 |};
                      outage := None |})))).
Proof.
  apply (createContact_then_lookup 30 None p777 None primary
           {| db := star_table; outage := None |}).
  vm_compute. reflexivity.
Defined.




(* ------------------------------------------------------------------ *)
(** ** [getContactChain] *)

Lemma insert_by_createdAt_sorted c l :
  StronglySorted by_createdAt l ->
  StronglySorted by_createdAt (insert_by_createdAt c l).
Proof.
  induction l as [| d l IH]; intros Hs; simpl.
  - repeat constructor.
  - inversion Hs as [| ? ? Hl Hd]; subst.
    destruct (createdAt c <=? createdAt d) eqn:E.
    + apply Nat.leb_le in E. constructor; [assumption |].
      constructor; [exact E |].
      apply Forall_forall. intros x Hx.
      rewrite Forall_forall in Hd. specialize (Hd x Hx).
      unfold by_createdAt in *. lia.
    + apply Nat.leb_gt in E. constructor; [now apply IH |].
      apply Forall_forall. intros x Hx.
      apply in_insert_by_createdAt in Hx. destruct Hx as [-> | Hx].
      * unfold by_createdAt. lia.
      * rewrite Forall_forall in Hd. exact (Hd x Hx).
Qed.

Lemma order_by_createdAt_sorted l :
  StronglySorted by_createdAt (order_by_createdAt l).
Proof.
  induction l as [| c l IH]; simpl; [constructor |].
  now apply insert_by_createdAt_sorted.
Qed.

Lemma in_contact_tree fuel table :
  forall work l, contact_tree fuel table work = Some l ->
  forall x, In x l <-> exists k, In x (rounds k table work).
Proof.
  induction fuel as [| fuel IH]; intros work l H x;
    destruct work as [| w0 work]; cbn [contact_tree] in H.
  - inversion H; subst. split; [contradiction |].
    intros [k Hk]. now rewrite rounds_nil in Hk.
  - discriminate.
  - inversion H; subst. split; [contradiction |].
    intros [k Hk]. now rewrite rounds_nil in Hk.
  - destruct (contact_tree fuel table (tree_step table (w0 :: work)))
      as [rest |] eqn:Hrest; [| discriminate].
    inversion H; subst l; clear H.
    change (In x ((w0 :: work) ++ rest) <->
            exists k, In x (rounds k table (w0 :: work))).
    rewrite in_app_iff, (IH _ _ Hrest x). split.
    + intros [Hx | [k Hk]]; [exists 0; exact Hx | exists (S k); exact Hk].
    + intros [[| k] Hk]; [left; exact Hk | right; exists k; exact Hk].
Qed.

(** X8.  What [getContactChain] returns for a contact id, on any table: the
    rows reached from the row with that id by following links downwards,
    from a row to the rows whose [linkedId] is its [id], through rows that
    are not deleted; the contact a row is itself linked to is not followed.
    The result is in ascending order of [createdAt]. *)
Theorem getContactChain_reaches root table chain :
  select_chain root table = Some chain ->
  StronglySorted by_createdAt chain /\
  forall x, In x chain <->
            exists c l, In c table /\ id c = root /\ deletedAt c = None /\
                        path table c l /\ last l c = x.
Proof.
  unfold select_chain.
  destruct (contact_tree (S (List.length table)) table _) as [t |] eqn:Ht;
    [| discriminate].
  intros H. inversion H; subst chain; clear H.
  split; [apply order_by_createdAt_sorted |].
  intros x. rewrite in_order_by_createdAt, (in_contact_tree _ _ _ _ Ht x).
  split.
  - intros [k Hk]. apply in_rounds in Hk.
    destruct Hk as [c [l [Hc [Hp [_ Hlast]]]]].
    apply filter_In in Hc. destruct Hc as [Hin Hb].
    apply andb_true_iff in Hb. destruct Hb as [Hid Hdel].
    apply Nat.eqb_eq in Hid. apply sql_is_null_iff in Hdel.
    exists c, l. auto.
  - intros [c [l [Hin [Hid [Hdel [Hp Hlast]]]]]].
    exists (List.length l). apply in_rounds. exists c, l.
    split; [| auto].
    apply filter_In. split; [assumption |].
    apply andb_true_iff. split; [now apply Nat.eqb_eq |
                                 now apply sql_is_null_iff].
Qed.

Lemma getContactChain_reaches_witness :
  StronglySorted by_createdAt (rows two_primaries_chain) /\
  forall x, In x (rows two_primaries_chain) <->
            exists c l, In c (rows two_primaries_chain) /\ id c = 1 /\
                        deletedAt c = None /\
                        path (rows two_primaries_chain) c l /\ last l c = x.
Proof.
  apply (getContactChain_reaches 1 (rows two_primaries_chain)
           (rows two_primaries_chain)).
  vm_compute. reflexivity.
Defined.

Lemma filter_key_single (g : Contact -> bool) (l : list Contact) a :
  NoDup (map id l) -> In a l -> g a = true ->
  filter (fun c => Nat.eqb (id c) (id a) && g c) l = [a].
Proof.
  induction l as [| x l IH]; simpl; [contradiction |].
  intros Hnd Hin Hg. inversion Hnd as [| ? ? Hx Hl]; subst.
  destruct Hin as [-> | Hin].
  - rewrite Nat.eqb_refl, Hg. simpl. f_equal.
    destruct (filter _ l) as [| y ys] eqn:E; [reflexivity |].
    exfalso.
    assert (Hy : In y (filter (fun c => Nat.eqb (id c) (id a) && g c) l))
      by (rewrite E; now left).
    apply filter_In in Hy. destruct Hy as [Hy Hb].
    apply andb_true_iff in Hb. destruct Hb as [Hb _].
    apply Nat.eqb_eq in Hb. apply Hx. rewrite <- Hb. now apply in_map.
  - destruct (Nat.eqb (id x) (id a)) eqn:E.
    + exfalso. apply Nat.eqb_eq in E. apply Hx. rewrite E. now apply in_map.
    + simpl. now apply IH.
Qed.

Lemma select_chain_star s root :
  well_formed s ->
  exists chain,
    select_chain root (rows s) = Some chain /\
    (forall x, In x chain <->
               In x (rows s) /\ deletedAt x = None /\
               exists r, In r (rows s) /\ id r = root /\ deletedAt r = None /\
                         (x = r \/ linkedId x = Some root)) /\
    (forall c, In c (rows s) -> id c = root -> deletedAt c = None ->
               is_secondary c = true -> chain = [c]).
Proof.
  intros Hwf. rewrite (select_chain_well_formed s Hwf root). cbv zeta.
  eexists. split; [reflexivity |].
  set (base := filter (fun c => Nat.eqb (id c) root
                                && sql_is_null (deletedAt c)) (rows s)).
  assert (Hbase : forall r, In r base <->
                            In r (rows s) /\ id r = root /\ deletedAt r = None).
  { intros r. unfold base. rewrite filter_In, andb_true_iff, Nat.eqb_eq,
      sql_is_null_iff. tauto. }
  split.
  - intros x. rewrite in_order_by_createdAt, in_app_iff, in_tree_step. split.
    + intros [Hx | [Hin [Hdel [ct [Hct Hl]]]]].
      * apply Hbase in Hx as Hx'. destruct Hx' as [Hin [Hid Hdel]].
        split; [assumption |]. split; [assumption |].
        exists x. auto.
      * apply sql_is_null_iff in Hdel. apply links_to_linked in Hl.
        apply Hbase in Hct. destruct Hct as [Hr [Hid Hrdel]].
        split; [assumption |]. split; [assumption |].
        exists ct. rewrite Hid in Hl. auto 6.
    + intros [Hin [Hdel [r [Hr [Hid [Hrdel [-> | Hl]]]]]]].
      * left. apply Hbase. auto.
      * right. split; [assumption |].
        split; [now apply sql_is_null_iff |].
        exists r. split; [apply Hbase; auto |].
        unfold links_to. rewrite Hl, Hid. apply Nat.eqb_refl.
  - intros c Hin Hid Hdel Hsec.
    assert (Hb : base = [c]).
    { unfold base. rewrite <- Hid.
      apply (filter_key_single (fun c => sql_is_null (deletedAt c)));
        [exact (wf_keys Hwf) | assumption | now apply sql_is_null_iff]. }
    rewrite Hb.
    assert (Hkids : tree_step (rows s) [c] = []).
    { destruct (tree_step (rows s) [c]) as [| d ds] eqn:E; [reflexivity |].
      exfalso.
      assert (Hd : In d (tree_step (rows s) [c])) by (rewrite E; now left).
      apply in_tree_step in Hd.
      destruct Hd as [Hdin [_ [ct [[<- | []] Hl]]]].
      apply links_to_linked in Hl.
      destruct (wf_leaves Hwf d Hdin (linked_row_is_secondary s Hwf d _ Hdin Hl))
        as [p [Hpin [Hdp Hp]]].
      assert (p = c).
      { apply (same_key_same_row (rows s)); try assumption.
        - exact (wf_keys Hwf).
        - congruence. }
      subst p. rewrite is_primary_not_secondary, Hsec in Hp. discriminate. }
    rewrite Hkids. reflexivity.
Qed.

(** X9.  On a well-formed table (unique ids, primaries unlinked, secondaries
    linked to a primary) the query of [getContactChain] always finishes, and
    the chain of an id holds the row with that id, if it is not deleted, and
    the rows linked to it that are not deleted, and nothing else.  In
    particular the chain of a secondary is that secondary alone: its primary
    is not in it. *)
Theorem getContactChain_star s root :
  well_formed s ->
  exists chain,
    select_chain root (rows s) = Some chain /\
    (forall x, In x chain <->
               In x (rows s) /\ deletedAt x = None /\
               exists r, In r (rows s) /\ id r = root /\ deletedAt r = None /\
                         (x = r \/ linkedId x = Some root)) /\
    (forall c, In c (rows s) -> id c = root -> deletedAt c = None ->
               is_secondary c = true -> chain = [c]).
Proof. exact (select_chain_star s root). Qed.

Lemma getContactChain_star_witness :
  exists chain,
    select_chain 2 (rows star_table) = Some chain /\
    (forall x, In x chain <->
               In x (rows star_table) /\ deletedAt x = None /\
               exists r, In r (rows star_table) /\ id r = 2 /\
                         deletedAt r = None /\
                         (x = r \/ linkedId x = Some 2)) /\
    (forall c, In c (rows star_table) -> id c = 2 ->
               deletedAt c = None -> is_secondary c = true -> chain = [c]).
Proof.
  apply (getContactChain_star star_table 2).
  exact star_table_well_formed.
Defined.

(* ================================================================== *)
(** * The handler as a whole *)

(* ------------------------------------------------------------------ *)
(** ** What a row read by the handler lacks *)


(** X16.  Lines 149-168 are never reached.  Whatever rows were matched and
    whatever the chain query returned, the consolidation is the chain query,
    when a contact matched, followed by the insertion of a primary and the
    construction of the response from the inserted row: no secondary is
    inserted and [updateContactToSecondary] is not called. *)
Theorem consolidation_stops_at_line_146 now e p related w :
  consolidate now e p related w
  = (_ <- match related with
          | first :: _ => getContactChain first
          | [] => ret []
          end ;;
     prim <- createContact now e p None primary ;;
     respond (buildResponse_js [pg_row prim])) w.
Proof.
  unfold consolidate, bind.
  destruct (match related with
            | first :: _ => getContactChain first
            | [] => ret []
            end w) as [[f | chain] w']; [reflexivity |].
  now rewrite find_sees_primary.
Qed.

(* ------------------------------------------------------------------ *)
(** ** [buildResponse] on objects and on typed contacts *)

Lemma js_strict_eq_text x y :
  js_strict_eq (js_text x) (js_text y) = opt_string_eqb x y.
Proof. destruct x, y; reflexivity. Qed.

Lemma js_truthy_text x : js_truthy (js_text x) = truthy x.
Proof. destruct x; reflexivity. Qed.

Lemma seen_text x acc :
  existsb (js_strict_eq (js_text x)) (map js_text acc)
  = existsb (opt_string_eqb x) acc.
Proof.
  induction acc as [| y acc IH]; cbn [map existsb]; [reflexivity |].
  now rewrite js_strict_eq_text, IH.
Qed.

Lemma set_fold_text l :
  forall acc,
    fold_left (fun acc x => if existsb (js_strict_eq x) acc then acc
                            else acc ++ [x])
              (map js_text l) (map js_text acc)
    = map js_text
          (fold_left (fun acc x => if existsb (opt_string_eqb x) acc then acc
                                   else acc ++ [x])
                     l acc).
Proof.
  induction l as [| x l IH]; intros acc; cbn [map fold_left]; [reflexivity |].
  rewrite seen_text. destruct (existsb (opt_string_eqb x) acc).
  - apply IH.
  - rewrite <- IH, map_app. reflexivity.
Qed.

Lemma set_from_js_text l : set_from_js (map js_text l) = map js_text (set_from l).
Proof. exact (set_fold_text l []). Qed.

Lemma find_through {A B : Type} (f : A -> B) (P : B -> bool) (Q : A -> bool) l :
  (forall a, P (f a) = Q a) -> find P (map f l) = option_map f (find Q l).
Proof.
  intros H. induction l as [| a l IH]; cbn [map find]; [reflexivity |].
  rewrite H. destruct (Q a); [reflexivity | exact IH].
Qed.

Lemma filter_through {A B : Type} (f : A -> B) (P : B -> bool) (Q : A -> bool) l :
  (forall a, P (f a) = Q a) -> filter P (map f l) = map f (filter Q l).
Proof.
  intros H. induction l as [| a l IH]; cbn [map filter]; [reflexivity |].
  rewrite H. destruct (Q a); cbn [map]; now rewrite IH.
Qed.

Lemma reads_primary_typed c : reads_precedence "primary" (typed c) = is_primary c.
Proof.
  unfold is_primary. destruct c as [i ph em li prec cr up de].
  destruct prec; reflexivity.
Qed.

Lemma reads_secondary_typed c :
  reads_precedence "secondary" (typed c) = is_secondary c.
Proof.
  unfold is_secondary. destruct c as [i ph em li prec cr up de].
  destruct prec; reflexivity.
Qed.

Lemma typed_values (column : Contact -> option string) (name : string) l :
  (forall c, prop name (typed c) = js_text (column c)) ->
  filter js_truthy (map (prop name) (map typed l))
  = map js_text (filter truthy (map column l)).
Proof.
  intros H. rewrite map_map.
  rewrite (map_ext _ (fun c => js_text (column c)) H), <- (map_map column js_text).
  apply filter_through. exact js_truthy_text.
Qed.

(** X15.  On objects that carry the properties of [interface Contact],
    lines 115-132 compute what [buildResponse] computes on the contacts:
    the same error, or the same answer. *)
Theorem buildResponse_js_typed contacts :
  buildResponse_js (map typed contacts)
  = match buildResponse contacts with
    | inl f => inl f
    | inr body => inr (json body)
    end.
Proof.
  unfold buildResponse_js, buildResponse.
  rewrite (find_through typed (reads_precedence "primary") is_primary
             contacts reads_primary_typed).
  rewrite (filter_through typed (reads_precedence "secondary") is_secondary
             contacts reads_secondary_typed).
  destruct (find is_primary contacts) as [p |]; cbn [option_map];
    [| reflexivity].
  unfold json. cbn [primaryContatctId emails phoneNumbers secondaryContactIds].
  rewrite (typed_values email "email") by reflexivity.
  rewrite (typed_values phoneNumber "phoneNumber") by reflexivity.
  rewrite <- !set_from_js_text. cbn [map].
  rewrite !map_map. reflexivity.
Qed.

(* ------------------------------------------------------------------ *)
(** ** What a request gets and what it leaves *)

(** X10.  No request is answered 200.  A request with neither a non-empty
    email nor a non-empty phone number is answered 400 and changes
    nothing; any other request is answered 500, or not at all when the
    chain query does not finish, and then no row is changed either. *)
Theorem request_is_refused_or_fails now fails req s :
  match fst (post_identify now fails req s) with
  | Ok200 _ => False
  | BadRequest400 =>
      truthy (reqEmail req) = false /\ truthy (reqPhoneNumber req) = false /\
      snd (post_identify now fails req s) = s
  | InternalError500 =>
      truthy (reqEmail req) || truthy (reqPhoneNumber req) = true
  | NoReply =>
      truthy (reqEmail req) || truthy (reqPhoneNumber req) = true /\
      rows (snd (post_identify now fails req s)) = rows s
  end.
Proof.
  unfold post_identify.
  destruct (truthy (reqEmail req) || truthy (reqPhoneNumber req)) eqn:Hreq.
  - rewrite (valid_request req Hreq).
    destruct (identify_faults now req {| db := s; outage := fails |})
      as [f [w' [Heq Hcases]]].
    rewrite Heq. cbn [fst snd reply].
    destruct f; try reflexivity.
    destruct Hcases as [[_ [Hdb _]] | [Hf _]]; [| discriminate].
    split; [reflexivity | exact Hdb].
  - apply orb_false_iff in Hreq. destruct Hreq as [He Hp].
    rewrite He, Hp. cbn. auto.
Qed.

(** X11.  A request changes the table by one insertion at most: the rows
    afterwards are the rows before, or the rows before followed by one
    row, which has the next value of the sequence as [id], is a primary,
    is linked to nothing, is not deleted and has the clock reading as
    [createdAt] and [updatedAt]; the reply is then 500.  No request
    rewrites or removes a row, and none inserts a secondary. *)
Theorem operation_appends_one_primary now fails req s :
  rows (snd (post_identify now fails req s)) = rows s \/
  exists c,
    rows (snd (post_identify now fails req s)) = rows s ++ [c] /\
    nextId (snd (post_identify now fails req s)) = S (nextId s) /\
    fresh_primary now s c /\
    fst (post_identify now fails req s) = InternalError500.
Proof.
  destruct (post_identify_stores now fails req s)
    as [[H _] | [c [Hins Hreply]]]; [now left | right].
  destruct (insert_contact_row _ _ _ _ _ _ _ _ Hins)
    as [Hid [Hl [Hprec [Hc [Hu [Hd [Hrows Hnext]]]]]]].
  exists c. unfold fresh_primary. auto 10.
Qed.

(** X12.  On a well-formed table whose sequence is not exhausted, with the
    connection holding, a request that has a non-empty email or phone
    number whose values fit their columns and hold no character of code 0
    always inserts: the table gains one primary carrying the request's
    email and phone number, even when a contact with these values is
    already there, and the reply is 500. *)
Theorem fitting_request_inserts_primary now req s :
  well_formed s -> in_integer (nextId s) = true ->
  truthy (reqEmail req) || truthy (reqPhoneNumber req) = true ->
  fits 255 (reqEmail req) = true -> fits 15 (reqPhoneNumber req) = true ->
  sendable (reqEmail req) = true -> sendable (reqPhoneNumber req) = true ->
  post_identify now None req s
  = (InternalError500,
     {| rows := rows s ++ [mkContact (nextId s) (reqPhoneNumber req)
                                     (reqEmail req) None primary now now None];
        nextId := S (nextId s) |}).
Proof.
  intros Hwf Hseq Hreq Hfe Hfp Hse Hsp.
  unfold post_identify. rewrite (valid_request req Hreq), identify_connected.
  unfold served. rewrite Hse, Hsp. cbn [andb].
  assert (Hchain : exists chain,
             expanded_chain (reqEmail req) (reqPhoneNumber req) (rows s)
             = Some chain).
  { unfold expanded_chain.
    destruct (select_related (reqEmail req) (reqPhoneNumber req) (rows s))
      as [| first others]; [now exists [] |].
    rewrite (select_chain_well_formed s Hwf). eexists. reflexivity. }
  destruct Hchain as [chain ->].
  unfold insert_contact.
  rewrite Hse, Hsp, Hseq, (varchar_keeps _ _ Hfp), (varchar_keeps _ _ Hfe),
    (fresh_id_not_taken s Hwf).
  reflexivity.
Qed.

Lemma fitting_request_inserts_primary_witness :
  post_identify 30 None (mkRequest ax p555) star_table
  = (InternalError500,
     {| rows := rows star_table
                ++ [mkContact (nextId star_table) p555 ax None primary 30 30 None];
        nextId := S (nextId star_table) |}).
Proof.
  apply (fitting_request_inserts_primary 30 (mkRequest ax p555) star_table);
    solve [exact star_table_well_formed | reflexivity].
Defined.

(* ------------------------------------------------------------------ *)
(** ** The tables the service builds *)

Lemma post_identify_unlinked now fails req s :
  Forall unlinked_primary (rows s) ->
  Forall unlinked_primary (rows (snd (post_identify now fails req s))).
Proof.
  intros H.
  destruct (post_identify_stores now fails req s)
    as [[Hsame _] | [c [Hins _]]]; [now rewrite Hsame |].
  destruct (insert_contact_row _ _ _ _ _ _ _ _ Hins)
    as [_ [Hl [Hprec [Hc [Hu [Hd [Hrows _]]]]]]].
  rewrite Hrows. apply Forall_app. split; [assumption |].
  constructor; [| constructor].
  unfold unlinked_primary. rewrite Hc, Hu. auto.
Qed.

Lemma run_unlinked history : Forall unlinked_primary (rows (run history)).
Proof.
  unfold run.
  assert (H : forall s, Forall unlinked_primary (rows s) ->
                        Forall unlinked_primary (rows (fold_left serve history s))).
  { induction history as [| c history IH]; intros s Hs; [exact Hs |].
    cbn [fold_left]. apply IH. unfold serve.
    now apply post_identify_unlinked. }
  apply H. constructor.
Qed.

Lemma tree_step_unlinked table work :
  Forall unlinked_primary table -> tree_step table work = [].
Proof.
  intros H. destruct (tree_step table work) as [| d ds] eqn:E; [reflexivity |].
  exfalso.
  assert (Hd : In d (tree_step table work)) by (rewrite E; now left).
  apply in_tree_step in Hd. destruct Hd as [Hin [_ [ct [_ Hl]]]].
  apply links_to_linked in Hl.
  rewrite Forall_forall in H. destruct (H d Hin) as [_ [Hnone _]].
  congruence.
Qed.

Lemma select_chain_unlinked s c :
  well_formed s -> Forall unlinked_primary (rows s) -> In c (rows s) ->
  select_chain (id c) (rows s) = Some [c].
Proof.
  intros Hwf Hall Hin. rewrite (select_chain_well_formed s Hwf). cbv zeta.
  rewrite (tree_step_unlinked _ _ Hall), app_nil_r.
  rewrite (filter_key_single (fun c => sql_is_null (deletedAt c)) (rows s) c
             (wf_keys Hwf) Hin).
  - reflexivity.
  - rewrite Forall_forall in Hall. destruct (Hall c Hin) as [_ [_ [Hd _]]].
    now rewrite Hd.
Qed.

(** X13.  Whatever requests were served on the initially empty table, with
    whatever losses of the connection: ids are distinct and below the
    sequence, and every contact is a primary that is linked to nothing and
    not deleted, with [updatedAt] equal to [createdAt]; the service never
    leaves a secondary.  The chain query of any contact finishes and
    returns that contact alone. *)
Theorem tables_hold_unlinked_primaries history :
  well_formed (run history) /\
  Forall unlinked_primary (rows (run history)) /\
  (forall c, In c (rows (run history)) ->
             select_chain (id c) (rows (run history)) = Some [c]).
Proof.
  split; [apply run_well_formed |]. split; [apply run_unlinked |].
  intros c Hin.
  exact (select_chain_unlinked _ c (run_well_formed history)
           (run_unlinked history) Hin).
Qed.
